(** * PII detection and redaction: the record evaluator of
    [detector_varikuti_Narendra_Reddy.py]

    A shallow embedding of [process_record], of the redaction functions
    and of the regular expressions they rely on, then the rule table of
    the specification and a second reading of [process_record] on heap
    objects, followed by the properties of the evaluator.

    Conventions.
    - A Python [str] is a list of characters ([pystr]).  A character is
      a code point below 256 (the Latin-1 block of Unicode), carried by
      Rocq's [ascii]; the character classes of [re] and of [str] are the
      Unicode ones restricted to that block.
    - A record (a Python [dict] with string keys) is a [gmap string value].
    - A Python exception is the [Raise] constructor of [result]. *)

From Stdlib Require Import Ascii String NArith.
From stdpp Require Import base option list gmap strings.

Set Warnings "-clear-no-such-hyp".

(** ** Python values and exceptions *)

Abbreviation pystr := (list ascii).

(** [py "text"] is the Python string literal ["text"]. *)
Definition py (s : string) : pystr := list_ascii_of_string s.

(** JSON scalars as [json.loads] produces them.  Only [VStr] is inspected
    by the evaluator ([isinstance(value, str)]); a float is kept as
    mantissa and binary exponent. *)
Inductive value :=
| VNone
| VBool (b : bool)
| VInt (n : Z)
| VFloat (m e : Z)
| VStr (s : pystr).

(** [BadReference] stands for the use of a reference to no object, which
    Python code cannot produce; it keeps the heap operations total. *)
Inductive exn := IndexError | ValueError | BadReference.

Inductive result (A : Type) :=
| Ok (a : A)
| Raise (e : exn).
Arguments Ok {A} a.
Arguments Raise {A} e.

Global Instance result_bind : MBind result := λ A B f m,
  match m with
  | Ok a => f a
  | Raise e => Raise e
  end.

(** A [for] loop whose body may raise. *)
Fixpoint for_each {A S} (body : S → A → result S) (l : list A) (s : S) : result S :=
  match l with
  | [] => Ok s
  | a :: l' => s' ← body s a; for_each body l' s'
  end.

(** ** Characters *)

Definition code (c : ascii) : N := N_of_ascii c.

Definition in_range (lo hi c : ascii) : bool :=
  ((code lo <=? code c) && (code c <=? code hi))%N.

Definition code_in (lo hi : N) (c : ascii) : bool :=
  ((lo <=? code c) && (code c <=? hi))%N.

Definition is_char (a c : ascii) : bool := bool_decide (a = c).

(** [\d]: Unicode decimal digits; below 256 these are [0-9]. *)
Definition is_decimal (c : ascii) : bool := in_range "0" "9" c.

(** [str.isspace] and [\s]: TAB..CR, FS..US, space, NEL, NBSP. *)
Definition is_space (c : ascii) : bool :=
  code_in 9 13 c || code_in 28 32 c || code_in 133 133 c || code_in 160 160 c.

(** [str.isalnum] below 256. *)
Definition is_alnum (c : ascii) : bool :=
  in_range "0" "9" c || in_range "A" "Z" c || in_range "a" "z" c
  || code_in 170 170 c || code_in 178 179 c || code_in 181 181 c
  || code_in 185 186 c || code_in 188 190 c
  || code_in 192 214 c || code_in 216 246 c || code_in 248 255 c.

(** [\w]: alphanumeric or underscore. *)
Definition is_word (c : ascii) : bool := is_alnum c || is_char "_" c.

(** [str.lower] on one character below 256. *)
Definition lower (c : ascii) : ascii :=
  if in_range "A" "Z" c || code_in 192 214 c || code_in 216 222 c
  then ascii_of_N (code c + 32) else c.

(** ** String operations of [str] *)

(** [s[:n]] and [s[-n:]] for [n >= 0]; slices never raise. *)
Definition slice_to (n : nat) (s : pystr) : pystr := take n s.
Definition slice_last (n : nat) (s : pystr) : pystr := drop (length s - n) s.

(** [s[0]] and [s[-1]]; indexing raises [IndexError] out of range. *)
Definition index_first {A} (l : list A) : result A :=
  match l with
  | [] => Raise IndexError
  | x :: _ => Ok x
  end.

Definition index_last {A} (l : list A) : result A :=
  match last l with
  | None => Raise IndexError
  | Some x => Ok x
  end.

(** [l[i]] for [i >= 0]. *)
Definition index_nat {A} (l : list A) (i : nat) : result A :=
  match l !! i with
  | None => Raise IndexError
  | Some x => Ok x
  end.

Fixpoint lstrip (s : pystr) : pystr :=
  match s with
  | [] => []
  | c :: t => if is_space c then lstrip t else s
  end.

Definition rstrip (s : pystr) : pystr := reverse (lstrip (reverse s)).

(** [s.strip()] *)
Definition strip (s : pystr) : pystr := rstrip (lstrip s).

(** [s.split()]: the maximal runs of non-whitespace characters. *)
Fixpoint split_ws (s : pystr) : list pystr :=
  match s with
  | [] => []
  | c :: t =>
      if is_space c then split_ws t
      else match t with
           | [] => [[c]]
           | d :: _ =>
               if is_space d then [c] :: split_ws t
               else match split_ws t with
                    | [] => [[c]]
                    | w :: ws => (c :: w) :: ws
                    end
           end
  end.

(** [s.split(sep)] for a one-character separator: empty pieces are kept. *)
Fixpoint split_on (sep : ascii) (s : pystr) : list pystr :=
  match s with
  | [] => [[]]
  | c :: t =>
      if is_char sep c then [] :: split_on sep t
      else match split_on sep t with
           | [] => [[c]]
           | w :: ws => (c :: w) :: ws
           end
  end.

(** [s.split(sep, 1)]: cut at the first separator only. *)
Fixpoint split_on_once (sep : ascii) (s : pystr) : list pystr :=
  match s with
  | [] => [[]]
  | c :: t =>
      if is_char sep c then [[]; t]
      else match split_on_once sep t with
           | [] => [[c]]
           | w :: ws => (c :: w) :: ws
           end
  end.

(** [s.replace(c, '')] for a one-character [c]. *)
Definition remove_char (c : ascii) (s : pystr) : pystr :=
  filter (λ x, x ≠ c) s.

(** [sep.join(parts)] for a one-character [sep]. *)
Fixpoint join (sep : ascii) (parts : list pystr) : pystr :=
  match parts with
  | [] => []
  | [p] => p
  | p :: ps => p ++ sep :: join sep ps
  end.

(** ** Regular expressions

    The fragment of [re] the detector uses: the empty pattern, character
    classes, the word boundary [\b], concatenation and bounded or
    unbounded repetition. *)

Inductive regex :=
| Eps
| Chr (p : ascii → bool)
| Bnd
| Cat (r1 r2 : regex)
| Rep (lo : nat) (hi : option nat) (r : regex).

(** A position in the subject string: the character before it, if any,
    and the rest of the input. *)
Definition cursor : Type := option ascii * pystr.

Definition word_before (c : cursor) : bool :=
  match c.1 with Some x => is_word x | None => false end.
Definition word_after (c : cursor) : bool :=
  match c.2 with x :: _ => is_word x | [] => false end.

(** [\b] holds where exactly one side is a word character. *)
Definition at_boundary (c : cursor) : bool := xorb (word_before c) (word_after c).

(** All positions reached by exactly [n] successive matches of [step]. *)
Fixpoint iterate (step : cursor → list cursor) (n : nat) (c : cursor) : list cursor :=
  match n with
  | 0 => [c]
  | S n' => c' ← step c; iterate step n' c'
  end.

(** All positions reached by [lo], [lo+1], ..., [lo+extra] matches. *)
Definition repeat_between (step : cursor → list cursor) (lo extra : nat)
    (c : cursor) : list cursor :=
  n ← seq lo (S extra); iterate step n c.

(** [ends r c]: every position at which a match of [r] starting at [c]
    can end.  The backtracking matcher of [re] succeeds exactly when
    this list is not empty.  An unbounded repetition is cut after
    [lo + length of the input] rounds, which loses nothing for the
    bodies used here since each round consumes a character. *)
Fixpoint ends (r : regex) (c : cursor) : list cursor :=
  match r with
  | Eps => [c]
  | Chr p =>
      match c.2 with
      | x :: t => if p x then [(Some x, t)] else []
      | [] => []
      end
  | Bnd => if at_boundary c then [c] else []
  | Cat r1 r2 => c' ← ends r1 c; ends r2 c'
  | Rep lo hi r' =>
      repeat_between (ends r') lo
        (match hi with Some h => h - lo | None => length c.2 end) c
  end.

(** Every position of a subject string, left to right. *)
Fixpoint cursors (prev : option ascii) (s : pystr) : list cursor :=
  (prev, s) ::
  match s with
  | [] => []
  | x :: t => cursors (Some x) t
  end.

Definition matches_at (r : regex) (c : cursor) : bool :=
  match ends r c with [] => false | _ :: _ => true end.

(** [bool(r.search(s))] *)
Definition search (r : regex) (s : pystr) : bool :=
  existsb (matches_at r) (cursors None s).

Definition plus (r : regex) : regex := Rep 1 None r.
Definition opt (r : regex) : regex := Rep 0 (Some 1) r.
Definition exactly (n : nat) (r : regex) : regex := Rep n (Some n) r.
Definition at_least (n : nat) (r : regex) : regex := Rep n None r.

Fixpoint cat_all (rs : list regex) : regex :=
  match rs with
  | [] => Eps
  | r :: rs' => Cat r (cat_all rs')
  end.

(** Under [re.IGNORECASE] a class is tested on the lowered character. *)
Definition ignorecase (p : ascii → bool) : ascii → bool := λ c, p (lower c).

Definition any_of (ps : list (ascii → bool)) : ascii → bool :=
  λ c, existsb (λ p, p c) ps.

Definition digit : regex := Chr is_decimal.
Definition space : regex := Chr is_space.
Definition word : regex := Chr is_word.

(** [r'\b\d{10}\b'] *)
Definition PHONE_REGEX : regex :=
  cat_all [Bnd; exactly 10 digit; Bnd].

(** [r'\b\d{4}\s?\d{4}\s?\d{4}\b'] *)
Definition AADHAR_REGEX : regex :=
  cat_all [Bnd; exactly 4 digit; opt space; exactly 4 digit; opt space;
           exactly 4 digit; Bnd].

(** [r'\b[A-PR-WYa-pr-wy][1-9]\d\s?\d{4}[1-9]\b'] with [re.IGNORECASE];
    digits and whitespace have no case. *)
Definition passport_letter : ascii → bool :=
  ignorecase (any_of [in_range "A" "P"; in_range "R" "W"; is_char "Y";
                      in_range "a" "p"; in_range "r" "w"; is_char "y"]).

Definition PASSPORT_REGEX : regex :=
  cat_all [Bnd; Chr passport_letter; Chr (in_range "1" "9"); digit; opt space;
           exactly 4 digit; Chr (in_range "1" "9"); Bnd].

(** [r'[\w\.\-]+@\w+'] *)
Definition UPI_REGEX : regex :=
  cat_all [plus (Chr (any_of [is_word; is_char "."; is_char "-"]));
           Chr (is_char "@"); plus word].

(** [r'\b[A-Za-z0-9._%+-]+@[A-Za-z0-9.-]+\.[A-Z|a-z]{2,}\b'] *)
Definition email_local : ascii → bool :=
  any_of [in_range "A" "Z"; in_range "a" "z"; in_range "0" "9"; is_char ".";
          is_char "_"; is_char "%"; is_char "+"; is_char "-"].
Definition email_domain : ascii → bool :=
  any_of [in_range "A" "Z"; in_range "a" "z"; in_range "0" "9"; is_char ".";
          is_char "-"].
Definition email_tld : ascii → bool :=
  any_of [in_range "A" "Z"; is_char "|"; in_range "a" "z"].

Definition EMAIL_REGEX : regex :=
  cat_all [Bnd; plus (Chr email_local); Chr (is_char "@");
           plus (Chr email_domain); Chr (is_char "."); at_least 2 (Chr email_tld);
           Bnd].

(** ** Redaction functions *)

Definition XS (n : nat) : pystr := replicate n "X"%char.

(** [f"{phone_str[:2]}XXXXXX{phone_str[-2:]}"] *)
Definition redact_phone (phone_str : pystr) : pystr :=
  slice_to 2 phone_str ++ py "XXXXXX" ++ slice_last 2 phone_str.

(** [f"XXXXXXXX{aadhar_str.replace(' ', '')[-4:]}"] *)
Definition redact_aadhar (aadhar_str : pystr) : pystr :=
  py "XXXXXXXX" ++ slice_last 4 (remove_char " " aadhar_str).

(** [f"{passport_str[0]}XXXXXX{passport_str[-1]}"] *)
Definition redact_passport (passport_str : pystr) : result pystr :=
  first ← index_first passport_str;
  final ← index_last passport_str;
  Ok (first :: py "XXXXXX" ++ [final]).

(** [p[0] + 'X' * (len(p) - 1)] *)
Definition mask_token (p : pystr) : result pystr :=
  first ← index_first p;
  Ok (first :: XS (length p - 1)).

(** The comprehension [[... for p in parts if len(p) > 0]]. *)
Fixpoint mask_tokens (parts : list pystr) : result (list pystr) :=
  match parts with
  | [] => Ok []
  | p :: ps =>
      if bool_decide (0 < length p) then
        m ← mask_token p; ms ← mask_tokens ps; Ok (m :: ms)
      else mask_tokens ps
  end.

Definition redact_name (name : pystr) : result pystr :=
  let parts := split_ws name in
  redacted_parts ← mask_tokens parts;
  Ok (join " " redacted_parts).

(** The tuple assignment [local_part, domain = email.split('@', 1)] raises
    [ValueError] unless the list has two items; the [try] turns that into
    the sentinel. *)
Definition unpack2 {A} (l : list A) : result (A * A) :=
  match l with
  | [a; b] => Ok (a, b)
  | _ => Raise ValueError
  end.

Definition redact_email_body (email : pystr) : result pystr :=
  '(local_part, domain) ← unpack2 (split_on_once "@" email);
  redacted_local ←
    (if bool_decide (2 < length local_part) then
       first ← index_first local_part;
       final ← index_last local_part;
       Ok (first :: py "XXX" ++ [final])
     else Ok (XS (length local_part)));
  Ok (redacted_local ++ "@"%char :: domain).

Definition redact_email (email : pystr) : result pystr :=
  match redact_email_body email with
  | Raise ValueError => Ok (py "[REDACTED_EMAIL]")
  | r => r
  end.

(** ** The record evaluator *)

(** The local variables of [process_record].  [assigned] is a ghost
    field: the keys of the item assignments [redacted_data[key] = ...]
    performed so far, most recent first. *)
Record locals := Locals {
  redacted_data : gmap string value;
  is_pii_found : bool;
  combinatorial_keys : gset string;
  assigned : list string;
}.

(** [redacted_data[key] = v] *)
Definition assign (key : string) (v : pystr) (st : locals) : locals :=
  Locals (<[key := VStr v]> (redacted_data st)) (is_pii_found st)
         (combinatorial_keys st) (key :: assigned st).

Definition found_pii (st : locals) : locals :=
  Locals (redacted_data st) true (combinatorial_keys st) (assigned st).

(** [combinatorial_keys.add(c)] *)
Definition add_category (c : string) (st : locals) : locals :=
  Locals (redacted_data st) (is_pii_found st) ({[c]} ∪ combinatorial_keys st)
         (assigned st).

(** [key in [k1, ...]] *)
Definition key_in (key : string) (ks : list string) : bool :=
  bool_decide (key ∈ ks).

Definition key_is (key k : string) : bool := bool_decide (key = k).

(** The body of the loop of step 1, for a string value that is not blank:
    the [if]/[elif] chain. *)
Definition match_field (st : locals) (key : string) (v : pystr) : result locals :=
  if search PHONE_REGEX v && key_in key ["phone"; "contact"] then
    Ok (assign key (redact_phone v) (found_pii st))
  else if search AADHAR_REGEX v && key_in key ["aadhar"; "address_proof"] then
    Ok (assign key (redact_aadhar v) (found_pii st))
  else if search PASSPORT_REGEX v && key_in key ["passport"] then
    r ← redact_passport v;
    Ok (assign key r (found_pii st))
  else if search UPI_REGEX v && key_in key ["upi_id"] then
    domain ← index_nat (split_on "@" v) 1;
    if bool_decide (length (split_on "." domain) = 1) then
      Ok (assign key (py "[REDACTED_UPI]") (found_pii st))
    else Ok st
  else if key_is key "name" && bool_decide (1 < length (split_ws (strip v))) then
    Ok (add_category "name" st)
  else if search EMAIL_REGEX v && key_is key "email" then
    Ok (add_category "email" st)
  else if key_is key "address" && bool_decide (10 < length (strip v)) then
    Ok (add_category "address" st)
  else if key_in key ["ip_address"; "device_id"] then
    Ok (add_category "device_context" st)
  else Ok st.

(** [not isinstance(value, str) or not value.strip()] *)
Definition skipped (v : value) : bool :=
  match v with
  | VStr s => bool_decide (strip s = [])
  | _ => true
  end.

(** One round of [for key, value in data.items()]: [continue] on a
    skipped value, the chain otherwise (the value is then a string). *)
Definition field_step (st : locals) (item : string * value) : result locals :=
  let '(key, value) := item in
  if skipped value then Ok st
  else match value with
       | VStr s => match_field st key s
       | _ => Ok st
       end.

(** Step 2: the fields to redact once two categories are present. *)
Definition fields_of_categories (cats : gset string) : gset string :=
  (if bool_decide ("name" ∈ cats) then {["name"]} else ∅)
  ∪ (if bool_decide ("email" ∈ cats) then {["email"]} else ∅)
  ∪ (if bool_decide ("address" ∈ cats) then {["address"]} else ∅)
  ∪ (if bool_decide ("device_context" ∈ cats)
     then {["ip_address"; "device_id"]} else ∅).

Definition escalate (st : locals) : locals * gset string :=
  if bool_decide (2 ≤ size (combinatorial_keys st))
  then (found_pii st, fields_of_categories (combinatorial_keys st))
  else (st, ∅).

(** One round of [for key in pii_fields_to_redact]. *)
Definition redact_field (st : locals) (key : string) : result locals :=
  match redacted_data st !! key with
  | Some (VStr s) =>
      if key_is key "name" then
        r ← redact_name s; Ok (assign key r st)
      else if key_is key "email" then
        r ← redact_email s; Ok (assign key r st)
      else if key_is key "address" then
        Ok (assign key (py "[REDACTED_ADDRESS]") st)
      else Ok (assign key (py "[REDACTED_IDENTIFIER]") st)
  | _ => Ok st
  end.

(** Steps 1 to 3, returning all locals. *)
Definition run_record (data : gmap string value) : result locals :=
  let st := Locals data false ∅ [] in
  st ← for_each field_step (map_to_list data) st;
  let '(st, pii_fields_to_redact) := escalate st in
  if bool_decide (pii_fields_to_redact ≠ ∅)
  then for_each redact_field (elements pii_fields_to_redact) st
  else Ok st.

Definition process_record (data : gmap string value)
    : result (gmap string value * bool) :=
  st ← run_record data;
  Ok (redacted_data st, is_pii_found st).

(** Detection alone: the categories found by step 1. *)
Definition scan (data : gmap string value) : result locals :=
  for_each field_step (map_to_list data) (Locals data false ∅ []).

Definition record (l : list (string * pystr)) : gmap string value :=
  list_to_map (prod_map id VStr <$> l).

(** ** The rule table of the specification

    The eight rules in their priority order: the fields a rule is scoped
    to, the condition on the value, and what the rule does. *)

Inductive action :=
| Redact (transform : pystr → result pystr)
| Mark (category : string).

Record rule := Rule {
  fields : list string;
  shape : pystr → bool;
  action_of : action;
}.

(** A UPI handle: [local@domain] where the piece after the first ['@']
    has no ['.']. *)
Definition upi_handle (v : pystr) : bool :=
  search UPI_REGEX v &&
  match split_on "@" v !! 1 with
  | Some domain => bool_decide (length (split_on "." domain) = 1)
  | None => false
  end.

Definition several_tokens (v : pystr) : bool :=
  bool_decide (1 < length (split_ws (strip v))).

Definition long_text (v : pystr) : bool :=
  bool_decide (10 < length (strip v)).

Definition phone_rule : rule :=
  Rule ["phone"; "contact"] (search PHONE_REGEX) (Redact (λ v, Ok (redact_phone v))).
Definition aadhar_rule : rule :=
  Rule ["aadhar"; "address_proof"] (search AADHAR_REGEX)
       (Redact (λ v, Ok (redact_aadhar v))).
Definition passport_rule : rule :=
  Rule ["passport"] (search PASSPORT_REGEX) (Redact redact_passport).
Definition upi_rule : rule :=
  Rule ["upi_id"] upi_handle (Redact (λ _, Ok (py "[REDACTED_UPI]"))).
Definition name_rule : rule :=
  Rule ["name"] several_tokens (Mark "name").
Definition email_rule : rule :=
  Rule ["email"] (search EMAIL_REGEX) (Mark "email").
Definition address_rule : rule :=
  Rule ["address"] long_text (Mark "address").
Definition device_rule : rule :=
  Rule ["ip_address"; "device_id"] (λ _, true) (Mark "device_context").

Definition rule_table : list rule :=
  [phone_rule; aadhar_rule; passport_rule; upi_rule;
   name_rule; email_rule; address_rule; device_rule].

Definition applies (key : string) (v : pystr) (r : rule) : bool :=
  key_in key (fields r) && shape r v.

(** The first rule of the table that applies to a field. *)
Definition first_rule (key : string) (v : pystr) : option rule :=
  List.find (applies key v) rule_table.

(** What a rule decides for a field. *)
Inductive verdict :=
| Standalone (redacted : pystr)
| Candidate (category : string)
| Nothing.

Definition classify (key : string) (v : pystr) : result verdict :=
  match first_rule key v with
  | None => Ok Nothing
  | Some r =>
      match action_of r with
      | Redact f => x ← f v; Ok (Standalone x)
      | Mark c => Ok (Candidate c)
      end
  end.

Definition apply_verdict (key : string) (vd : verdict) (st : locals) : locals :=
  match vd with
  | Standalone x => assign key x (found_pii st)
  | Candidate c => add_category c st
  | Nothing => st
  end.

(** Table-driven evaluation of one field. *)
Definition dispatch (st : locals) (key : string) (v : pystr) : result locals :=
  vd ← classify key v; Ok (apply_verdict key vd st).

(** The verdict on an item of the record, skipped values included. *)
Definition verdict_of (item : string * value) : verdict :=
  match item.2 with
  | VStr s =>
      if skipped (VStr s) then Nothing
      else match classify item.1 s with
           | Ok vd => vd
           | Raise _ => Nothing
           end
  | _ => Nothing
  end.

(** The transform step 3 applies to a field, by key. *)
Definition transform (key : string) (s : pystr) : result pystr :=
  if key_is key "name" then redact_name s
  else if key_is key "email" then redact_email s
  else if key_is key "address" then Ok (py "[REDACTED_ADDRESS]")
  else Ok (py "[REDACTED_IDENTIFIER]").

Definition standalone_keys : list string :=
  ["phone"; "contact"; "aadhar"; "address_proof"; "passport"; "upi_id"].

Definition escalated_keys : list string :=
  ["name"; "email"; "address"; "ip_address"; "device_id"].

(** The categories step 1 finds in a record. *)
Definition categories (data : gmap string value) : gset string :=
  match scan data with
  | Ok st => combinatorial_keys st
  | Raise _ => ∅
  end.

(** ** Records as objects

    [process_record] once more, with the dictionaries as objects in a
    heap and [data] and [redacted_data] as references to them, so that
    copying and aliasing are visible.  The item assignments of the code
    become updates of the object that [redacted_data] refers to. *)

Module Heap.

Abbreviation loc := positive.
Abbreviation heap := (gmap positive (gmap string value)).

Definition load (h : heap) (l : loc) : result (gmap string value) :=
  match h !! l with
  | Some d => Ok d
  | None => Raise BadReference
  end.

(** [d.copy()]: a new object with the same items. *)
Definition dict_copy (h : heap) (l : loc) : result (loc * heap) :=
  d ← load h l;
  let r := fresh (dom h) in
  Ok (r, <[r := d]> h).

(** The locals of [process_record], [redacted_data] being a reference
    into [objects]. *)
Record frame := Frame {
  objects : heap;
  redacted_ref : loc;
  pii_flag : bool;
  category_set : gset string;
  assignments : list string;
}.

(** Reading the locals through the reference, and writing them back:
    the object at [redacted_ref] is updated in place. *)
Definition view (fr : frame) : result locals :=
  d ← load (objects fr) (redacted_ref fr);
  Ok (Locals d (pii_flag fr) (category_set fr) (assignments fr)).

Definition store (fr : frame) (st : locals) : frame :=
  Frame (<[redacted_ref fr := redacted_data st]> (objects fr)) (redacted_ref fr)
        (is_pii_found st) (combinatorial_keys st) (assigned st).

Definition in_place {A} (body : locals → A → result locals)
    (fr : frame) (a : A) : result frame :=
  st ← view fr;
  st' ← body st a;
  Ok (store fr st').

Definition process_record (h : heap) (data : loc) : result (loc * bool * heap) :=
  '(redacted, h) ← dict_copy h data;
  items ← load h data;
  fr ← for_each (in_place field_step) (map_to_list items)
                (Frame h redacted false ∅ []);
  st ← view fr;
  let '(st, pii_fields_to_redact) := escalate st in
  let fr := store fr st in
  fr ← (if bool_decide (pii_fields_to_redact ≠ ∅)
        then for_each (in_place redact_field) (elements pii_fields_to_redact) fr
        else Ok fr);
  Ok (redacted_ref fr, pii_flag fr, objects fr).

End Heap.

(** ** Auxiliary notions for the proofs *)

Definition all_chars : list ascii := ascii_of_nat <$> seq 0 256.

(** Every character of class [p] is in class [P]. *)
Definition class_within (p P : ascii → bool) : bool :=
  forallb (λ c, implb (p c) (P c)) all_chars.

(** A lower bound on the number of [P]-characters inside any match. *)
Fixpoint need (P : ascii → bool) (r : regex) : nat :=
  match r with
  | Eps | Bnd => 0
  | Chr p => if class_within p P then 1 else 0
  | Cat r1 r2 => need P r1 + need P r2
  | Rep lo _ r' => lo * need P r'
  end.

(** The number of [P]-characters of a string. *)
Fixpoint tally (P : ascii → bool) (s : pystr) : nat :=
  match s with
  | [] => 0
  | x :: t => (if P x then 1 else 0) + tally P t
  end.

(** [consumed P k c c']: [c'] lies after [c], with at least [k]
    characters of class [P] in between. *)
Definition consumed (P : ascii → bool) (k : nat) (c c' : cursor) : Prop :=
  ∃ u, c.2 = u ++ c'.2 ∧ k ≤ tally P u.

Definition blank (s : pystr) : Prop := Forall (λ c, is_space c = true) s.

(** The matches of a pattern, declaratively: [matches r c c'] when [r]
    matches the text between the positions [c] and [c']. *)
Fixpoint power (R : cursor → cursor → Prop) (n : nat) (c c' : cursor) : Prop :=
  match n with
  | 0 => c' = c
  | S n' => ∃ c1, R c c1 ∧ power R n' c1 c'
  end.

Definition within (hi : option nat) (n : nat) : Prop :=
  match hi with
  | Some h => n ≤ h
  | None => True
  end.

Fixpoint matches (r : regex) (c c' : cursor) : Prop :=
  match r with
  | Eps => c' = c
  | Chr p => ∃ x t, c.2 = x :: t ∧ p x = true ∧ c' = (Some x, t)
  | Bnd => at_boundary c = true ∧ c' = c
  | Cat r1 r2 => ∃ c1, matches r1 c c1 ∧ matches r2 c1 c'
  | Rep lo hi r' => ∃ n, lo ≤ n ∧ within hi n ∧ power (matches r') n c c'
  end.

(** Patterns whose bounds are in order and whose unbounded repetitions
    have a body that consumes at least one character. *)
Fixpoint well_formed (r : regex) : bool :=
  match r with
  | Eps | Chr _ | Bnd => true
  | Cat r1 r2 => well_formed r1 && well_formed r2
  | Rep lo hi r' =>
      well_formed r' &&
      match hi with
      | Some h => lo <=? h
      | None => 0 <? need (λ _, true) r'
      end
  end.

(** The position after the prefix [pre] of [pre ++ rest]. *)
Definition position (pre rest : pystr) : cursor := (last pre, rest).

(** A run of exactly ten digits that is a whole token: no word
    character right before or right after it. *)
Definition ten_digit_token (s : pystr) : Prop :=
  ∃ pre tok post,
    s = pre ++ tok ++ post ∧ length tok = 10 ∧
    Forall (λ c, is_decimal c = true) tok ∧
    word_before (position pre (tok ++ post)) = false ∧
    word_after (position (pre ++ tok) post) = false.

(** The shape [local@domain]: an ['@'] with a character of [[\w.-]]
    right before it and a word character right after it. *)
Definition local_at_domain (s : pystr) : Prop :=
  ∃ pre x y post,
    s = pre ++ x :: "@"%char :: y :: post ∧
    any_of [is_word; is_char "."; is_char "-"] x = true ∧ is_word y = true.

(** Evaluate the key tests on a key that is known. *)
Ltac eval_keys :=
  repeat match goal with
  | |- context [key_in (String ?a ?k) ?l] =>
      let b := eval vm_compute in (key_in (String a k) l) in
      change (key_in (String a k) l) with b
  | |- context [key_is (String ?a ?k) ?l] =>
      let b := eval vm_compute in (key_is (String a k) l) in
      change (key_is (String a k) l) with b
  end;
  rewrite ?andb_true_r, ?andb_false_r; simpl.

Ltac known_key H :=
  unfold key_in, key_is in H; apply bool_decide_eq_true_1 in H;
  set_unfold in H; destruct_or?; subst; eval_keys.

(** Step 1 as a fold of verdicts. *)
Definition sweep (l : list (string * value)) (st : locals) : locals :=
  foldl (λ st item, apply_verdict item.1 (verdict_of item) st) st l.

(** The locals at the end of step 1. *)
Definition scanned (data : gmap string value) : locals :=
  sweep (map_to_list data) (Locals data false ∅ []).

Definition token (w : pystr) : Prop :=
  w ≠ [] ∧ Forall (λ c, is_space c = false) w.

(** [p[0] + 'X' * (len(p) - 1)] in closed form. *)
Definition masked (p : pystr) : pystr :=
  match p with
  | [] => []
  | c :: t => c :: XS (length t)
  end.

(** The masked local part of an email address. *)
Definition masked_local (l : pystr) : pystr :=
  if bool_decide (2 < length l)
  then match l, last l with
       | c :: _, Some d => c :: py "XXX" ++ [d]
       | _, _ => []
       end
  else XS (length l).

Definition apply_redaction (st : locals) (key : string) : locals :=
  match redacted_data st !! key with
  | Some (VStr s) =>
      match transform key s with
      | Ok r => assign key r st
      | Raise _ => st
      end
  | _ => st
  end.

Definition redact_all (ks : list string) (st : locals) : locals :=
  foldl apply_redaction st ks.

(** The value step 3 leaves in a selected field. *)
Definition redacted_value (key : string) (o : option value) : option value :=
  match o with
  | Some (VStr s) =>
      match transform key s with
      | Ok r => Some (VStr r)
      | Raise _ => o
      end
  | _ => o
  end.

Definition finished (data : gmap string value) : locals :=
  redact_all (elements (escalate (scanned data)).2) (escalate (scanned data)).1.

(** Whether step 1 found standalone PII. *)
Definition standalone_found (data : gmap string value) : bool :=
  match scan data with
  | Ok st => is_pii_found st
  | Raise _ => false
  end.

Definition ADDRESS_SENTINEL : pystr := py "[REDACTED_ADDRESS]".
Definition IDENTIFIER_SENTINEL : pystr := py "[REDACTED_IDENTIFIER]".

(** Sample records. *)
Definition blank_name_record : gmap string value :=
  list_to_map [("age", VInt 25); ("name", VStr (py "   "))].

Definition device_only_record : gmap string value :=
  record [("ip_address", py "192.168.1.100"); ("device_id", py "DEVICE_001")].

Definition phone_record : gmap string value :=
  record [("phone", py "9876543210")].

Definition labelled_phone : pystr := py "Ph: 9876543210".

Definition upi_record : gmap string value :=
  record [("upi_id", py "user@upi")].

Definition two_at_handle : pystr := py "a@b@c.d".

Definition contact_record : gmap string value :=
  record [("name", py "John Doe"); ("email", py "john@example.com")].

Definition mixed_device_record : gmap string value :=
  list_to_map [("name", VStr (py "John Doe"));
               ("ip_address", VStr (py "10.0.0.1"));
               ("device_id", VInt 42)].

Definition blank_device_record : gmap string value :=
  list_to_map [("name", VStr (py "John Doe"));
               ("ip_address", VStr (py "   "));
               ("device_id", VStr (py "DEVICE_001"))].

(** The piece of [s] that the rule takes for the domain:
    [s.split('@')[1]], the text between the first ['@'] and the next
    ['@'] or the end of [s]. *)
Definition domain_segment (s d : pystr) : Prop :=
  ∃ a rest, s = a ++ "@"%char :: d ++ rest ∧
            (("@"%char) ∉ a) ∧ (("@"%char) ∉ d) ∧
            (rest = [] ∨ ∃ r, rest = "@"%char :: r).

(** ** Further notions for the patterns *)

Definition ends_in_word (pre : pystr) : bool :=
  match last pre with Some x => is_word x | None => false end.

Definition starts_with_word (post : pystr) : bool :=
  match post with x :: _ => is_word x | [] => false end.

(** Four digits. *)
Definition digit_group (g : pystr) : Prop :=
  length g = 4 ∧ Forall (λ c, is_decimal c = true) g.

(** Nothing, or one whitespace character. *)
Definition separator (s : pystr) : Prop :=
  s = [] ∨ ∃ c, s = [c] ∧ is_space c = true.

(** Three groups of four digits, each two separated by at most one
    whitespace character, as a whole token. *)
Definition aadhar_token (s : pystr) : Prop :=
  ∃ pre g1 s1 g2 s2 g3 post,
    s = pre ++ g1 ++ s1 ++ g2 ++ s2 ++ g3 ++ post ∧
    digit_group g1 ∧ separator s1 ∧ digit_group g2 ∧ separator s2 ∧
    digit_group g3 ∧
    ends_in_word pre = false ∧ starts_with_word post = false.

(** The character before the position reached after reading [tok]. *)
Definition after (prev : option ascii) (tok : pystr) : option ascii :=
  match last tok with Some x => Some x | None => prev end.

(** ** The batch driver [main]

    [main] reads the rows of a CSV file, evaluates the JSON object of
    each row and writes one output row per input row.  The libraries it
    goes through are taken as given: the input file is the list of rows
    that [csv.DictReader] yields, or the error that opening it raises;
    [json.loads] and [json.dumps] are the two functions of a
    [json_codec]; the output file is the list of rows handed to
    [writerows].  A decoded object has scalar fields, as [value] has
    them. *)

Inductive io_error :=
| KeyError
| TypeError
| AttributeError
| FileNotFoundError
| OtherError
| EvaluatorError (e : exn).

Inductive attempt (A : Type) :=
| Done (a : A)
| Abort (e : io_error).
Arguments Done {A} a.
Arguments Abort {A} e.

Global Instance attempt_bind : MBind attempt := λ A B f m,
  match m with
  | Done a => f a
  | Abort e => Abort e
  end.

(** A cell of a row: [csv.DictReader] gives [None] for a column that a
    short row does not reach. *)
Inductive cell :=
| Text (s : pystr)
| NoCell.

Abbreviation csv_row := (gmap string cell).

(** What [json.loads] returns: an object, or some other JSON value. *)
Inductive json_doc :=
| JsonObject (d : gmap string value)
| JsonOther.

(** [json_loads s = None] stands for [json.JSONDecodeError]. *)
Record json_codec := JsonCodec {
  json_loads : pystr → option json_doc;
  json_dumps : gmap string value → pystr;
}.

Record out_row := OutRow {
  record_id : cell;
  redacted_data_json : pystr;
  is_pii : bool;
}.

Definition double_quote : ascii := "034"%char.

(** The literal [{"error": "Invalid JSON format"}]. *)
Definition ERROR_MARKER : pystr :=
  py "{" ++ double_quote :: py "error" ++ double_quote :: py ": " ++
  double_quote :: py "Invalid JSON format" ++ double_quote :: py "}".

(** [row[key]] *)
Definition row_item (row : csv_row) (key : string) : attempt cell :=
  match row !! key with
  | Some c => Done c
  | None => Abort KeyError
  end.

(** The body of [for row in reader].  [json.loads(None)] raises
    [TypeError]; [process_record] applied to a value that is not a
    [dict] raises [AttributeError] at [data.copy()] or [data.items()];
    only [json.JSONDecodeError] is caught here. *)
Definition process_row (J : json_codec) (row : csv_row) : attempt out_row :=
  rid ← row_item row "record_id";
  data_json_str ← row_item row "data_json";
  match data_json_str with
  | NoCell => Abort TypeError
  | Text s =>
      match json_loads J s with
      | None => Done (OutRow rid ERROR_MARKER false)
      | Some JsonOther => Abort AttributeError
      | Some (JsonObject data) =>
          match process_record data with
          | Ok (redacted, flag) => Done (OutRow rid (json_dumps J redacted) flag)
          | Raise e => Abort (EvaluatorError e)
          end
      end
  end.

(** The loop, [processed] being [processed_records] so far. *)
Fixpoint process_rows (J : json_codec) (rows : list csv_row)
    (processed : list out_row) : attempt (list out_row) :=
  match rows with
  | [] => Done processed
  | row :: rest =>
      o ← process_row J row;
      process_rows J rest (processed ++ [o])
  end.

Inductive message :=
| Starting
| Complete
| InputNotFound
| Unexpected (e : io_error).

(** The output file, if it exists, and what was printed. *)
Record world := World {
  output_file : option (list out_row);
  console : list message;
}.

Definition print (m : message) (w : world) : world :=
  World (output_file w) (console w ++ [m]).

Definition write (rows : list out_row) (w : world) : world :=
  World (Some rows) (console w).

(** The two [except] clauses. *)
Definition report (e : io_error) : message :=
  match e with
  | FileNotFoundError => InputNotFound
  | _ => Unexpected e
  end.

(** [main(input_file, output_file)]: [input_file] is what opening and
    reading the input gives, [open_output] what opening the output for
    writing gives. *)
Definition main (J : json_codec) (input_file : attempt (list csv_row))
    (open_output : attempt unit) (w : world) : world :=
  let w := print Starting w in
  let run :=
    rows ← input_file;
    processed_records ← process_rows J rows [];
    _ ← open_output;
    Done processed_records in
  match run with
  | Done processed_records => print Complete (write processed_records w)
  | Abort e => print (report e) w
  end.

(** A row that the loop gets through. *)
Definition row_ok (J : json_codec) (row : csv_row) : Prop :=
  is_Some (row !! "record_id") ∧
  ∃ s, row !! "data_json" = Some (Text s) ∧ json_loads J s ≠ Some JsonOther.


(** A codec that knows two documents. *)
Definition toy_codec : json_codec :=
  JsonCodec
    (λ s, if bool_decide (s = py "{}") then Some (JsonObject ∅)
          else if bool_decide (s = py "[]") then Some JsonOther
          else None)
    (λ _, py "{}").


Definition toy_bad_rows : list csv_row :=
  [ {[ "record_id" := Text (py "1"); "data_json" := Text (py "{}") ]};
    {[ "record_id" := Text (py "2"); "data_json" := Text (py "[]") ]} ].

(** ** Further sample records *)

Definition note_record : gmap string value :=
  list_to_map [("note", VStr (py "call 9876543210")); ("age", VInt 25);
               ("name", VStr (py "John Doe"));
               ("email", VStr (py "john@example.com"))].

Definition single_name_record : gmap string value :=
  record [("name", py "Alice"); ("email", py "alice@example.com");
          ("address", py "221B Baker Street")].

Definition aadhar_record : gmap string value :=
  record [("aadhar", py "1234 5678 9012")].

Definition passport_record : gmap string value :=
  record [("passport", py "A1234567")].

Definition phone_and_name_record : gmap string value :=
  record [("phone", py "9876543210"); ("name", py "John Doe");
          ("email", py "john@example.com")].

(** * Properties *)

(** ** The patterns and the evaluator on sample inputs *)

Example phone_hit : search PHONE_REGEX (py "9876543210") = true.
Proof. vm_compute. reflexivity. Qed.
Example phone_11 : search PHONE_REGEX (py "98765432101") = false.
Proof. vm_compute. reflexivity. Qed.
Example phone_in_text : search PHONE_REGEX (py "call 9876543210 now") = true.
Proof. vm_compute. reflexivity. Qed.
Example aadhar_hit : search AADHAR_REGEX (py "1234 5678 9012") = true.
Proof. vm_compute. reflexivity. Qed.
Example passport_hit : search PASSPORT_REGEX (py "A1234567") = true.
Proof. vm_compute. reflexivity. Qed.
Example passport_q : search PASSPORT_REGEX (py "Q1234567") = false.
Proof. vm_compute. reflexivity. Qed.
Example upi_hit : search UPI_REGEX (py "user@upi") = true.
Proof. vm_compute. reflexivity. Qed.
Example email_hit : search EMAIL_REGEX (py "john@example.com") = true.
Proof. vm_compute. reflexivity. Qed.
Example email_miss : search EMAIL_REGEX (py "john@example") = false.
Proof. vm_compute. reflexivity. Qed.

Example t_name : redact_name (py "John Doe") = Ok (py "JXXX DXX").
Proof. vm_compute. reflexivity. Qed.
Example t_email : redact_email (py "john.doe@example.com") = Ok (py "jXXXe@example.com").
Proof. vm_compute. reflexivity. Qed.
Example t_email2 : redact_email (py "ab@c.com") = Ok (py "XX@c.com").
Proof. vm_compute. reflexivity. Qed.
Example t_email3 : redact_email (py "abc") = Ok (py "[REDACTED_EMAIL]").
Proof. vm_compute. reflexivity. Qed.
Example t_rec1 : process_record (record [("name", py "John Doe"); ("email", py "john@example.com"); ("address", py "123 Main Street, City")])
  = Ok (record [("name", py "JXXX DXX"); ("email", py "jXXXn@example.com"); ("address", py "[REDACTED_ADDRESS]")], true).
Proof. vm_compute. reflexivity. Qed.
Example t_rec2 : process_record (record [("ip_address", py "192.168.1.100"); ("device_id", py "DEVICE_001")])
  = Ok (record [("ip_address", py "192.168.1.100"); ("device_id", py "DEVICE_001")], false).
Proof. vm_compute. reflexivity. Qed.
Example t_rec3 : process_record (record [("phone", py "9876543210"); ("upi_id", py "user@upi"); ("passport", py "A1234567"); ("aadhar", py "1234 5678 9012")])
  = Ok (record [("phone", py "98XXXXXX10"); ("upi_id", py "[REDACTED_UPI]"); ("passport", py "AXXXXXX7"); ("aadhar", py "XXXXXXXX9012")], true).
Proof. vm_compute. reflexivity. Qed.


(** ** Counting characters a match must contain *)

Lemma all_chars_complete (c : ascii) : In c all_chars.
Proof.
  unfold all_chars. rewrite <- (ascii_nat_embedding c).
  apply in_map, in_seq. pose proof (nat_ascii_bounded c). lia.
Qed.

Lemma class_within_sound p P c :
  class_within p P = true → p c = true → P c = true.
Proof.
  unfold class_within. rewrite forallb_forall. intros H Hp.
  specialize (H c (all_chars_complete c)). rewrite Hp in H. exact H.
Qed.

Lemma tally_app P s t : tally P (s ++ t) = tally P s + tally P t.
Proof. induction s as [|x s IH]; simpl; [done|]. rewrite IH. lia. Qed.

Lemma tally_le_length P s : tally P s ≤ length s.
Proof. induction s as [|x s IH]; simpl; [lia|]. destruct (P x); lia. Qed.

Lemma tally_replicate_none P x n : P x = false → tally P (replicate n x) = 0.
Proof. intros H. induction n as [|n IH]; simpl; [done|]. by rewrite H, IH. Qed.

Lemma tally_positive P s : 0 < tally P s → ∃ x, x ∈ s ∧ P x = true.
Proof.
  induction s as [|x s IH]; simpl; [lia|]. destruct (P x) eqn:E.
  - intros _. exists x. split; [left|done].
  - intros H. destruct (IH H) as (y & ? & ?). exists y. split; [by right|done].
Qed.

Section consumption.
Context (P : ascii → bool).

Lemma consumed_refl c : consumed P 0 c c.
Proof. exists []. split; [done|simpl; lia]. Qed.

Lemma consumed_trans k1 k2 c1 c2 c3 :
  consumed P k1 c1 c2 → consumed P k2 c2 c3 → consumed P (k1 + k2) c1 c3.
Proof.
  intros (u & Hu & Hk) (w & Hw & Hk'). exists (u ++ w). split.
  - by rewrite Hu, Hw, (assoc_L (++)).
  - rewrite tally_app. lia.
Qed.

Lemma consumed_weaken k k' c c' : k' ≤ k → consumed P k c c' → consumed P k' c c'.
Proof. intros ? (u & ? & ?). exists u. split; [done|lia]. Qed.

Lemma iterate_consumed step k n :
  (∀ c c', c' ∈ step c → consumed P k c c') →
  ∀ c c', c' ∈ iterate step n c → consumed P (n * k) c c'.
Proof.
  intros Hstep. induction n as [|n IH]; intros c c'; simpl.
  - intros ->%list_elem_of_singleton. apply consumed_refl.
  - intros (c1 & H1 & H2)%list_elem_of_bind.
    eapply consumed_trans; eauto.
Qed.

Lemma ends_consumed r : ∀ c c', c' ∈ ends r c → consumed P (need P r) c c'.
Proof.
  induction r as [|p| |r1 IH1 r2 IH2|lo hi r IH]; intros c c'; simpl.
  - intros ->%list_elem_of_singleton. apply consumed_refl.
  - destruct c as [prev [|x t]]; simpl; [by intros ?%elem_of_nil|].
    destruct (p x) eqn:Hp; [|by intros ?%elem_of_nil].
    intros ->%list_elem_of_singleton. exists [x]. split; [done|]. simpl.
    destruct (class_within p P) eqn:Hw; [|lia].
    rewrite (class_within_sound _ _ _ Hw Hp). lia.
  - destruct (at_boundary c); [|by intros ?%elem_of_nil].
    intros ->%list_elem_of_singleton. apply consumed_refl.
  - intros (c1 & H2 & H1)%list_elem_of_bind.
    eapply consumed_trans; eauto.
  - unfold repeat_between. intros (n & Hn & Hseq)%list_elem_of_bind.
    apply list_elem_of_In, in_seq in Hseq.
    eapply consumed_weaken; [|eapply iterate_consumed; eauto].
    apply Nat.mul_le_mono_r. lia.
Qed.

Lemma cursors_suffix prev s c : In c (cursors prev s) → ∃ u, s = u ++ c.2.
Proof.
  revert prev. induction s as [|x t IH]; intros prev; simpl.
  - intros [<-|[]]. by exists [].
  - intros [<-|H]; [by exists []|].
    destruct (IH _ H) as (u & ->). by exists (x :: u).
Qed.

(** A string in which [r] is found has at least [need P r]
    characters of class [P]. *)
Lemma search_need r s : search r s = true → need P r ≤ tally P s.
Proof.
  unfold search. rewrite existsb_exists. intros (c & Hc & Hm).
  unfold matches_at in Hm. destruct (ends r c) as [|c' l] eqn:E; [done|].
  destruct (ends_consumed r c c') as (u & Hu & Hk); [rewrite E; left|].
  destruct (cursors_suffix _ _ _ Hc) as (w & ->).
  rewrite Hu, !tally_app. lia.
Qed.
End consumption.

(** ** The matcher computes the declarative matches *)

Lemma iterate_power step R n :
  (∀ c c', c' ∈ step c ↔ R c c') →
  ∀ c c', c' ∈ iterate step n c ↔ power R n c c'.
Proof.
  intros H. induction n as [|n IH]; intros c c'; simpl.
  - apply list_elem_of_singleton.
  - rewrite list_elem_of_bind. split.
    + intros (c1 & H1 & H2). exists c1. by rewrite <- H, <- IH.
    + intros (c1 & H1 & H2). exists c1. by rewrite H, IH.
Qed.

Lemma power_shrinks R n c c' :
  (∀ c c', R c c' → length c'.2 < length c.2) →
  power R n c c' → n + length c'.2 ≤ length c.2.
Proof.
  intros H. revert c. induction n as [|n IH]; intros c; simpl.
  - intros ->. lia.
  - intros (c1 & H1%H & H2%IH). lia.
Qed.

Lemma ends_matches r :
  well_formed r = true → ∀ c c', c' ∈ ends r c ↔ matches r c c'.
Proof.
  induction r as [|p| |r1 IH1 r2 IH2|lo hi r IH]; simpl; intros Hwf c c'.
  - apply list_elem_of_singleton.
  - destruct c as [prev [|x t]]; simpl.
    { split; [by intros ?%elem_of_nil|by intros (? & ? & ? & _)]. }
    destruct (p x) eqn:Hp.
    + rewrite list_elem_of_singleton. split; [intros ->; eauto|].
      by intros (x' & t' & [= <- <-] & _ & ->).
    + split; [by intros ?%elem_of_nil|].
      intros (x' & t' & [= <- <-] & ? & _). congruence.
  - destruct (at_boundary c).
    + rewrite list_elem_of_singleton. naive_solver.
    + split; [by intros ?%elem_of_nil|by intros [? _]].
  - apply andb_true_iff in Hwf as [H1 H2]. rewrite list_elem_of_bind.
    split; intros (c1 & Ha & Hb); exists c1.
    + by rewrite <- IH1, <- IH2.
    + by rewrite IH1, IH2.
  - apply andb_true_iff in Hwf as [Hr Hhi]. specialize (IH Hr).
    unfold repeat_between. rewrite list_elem_of_bind. split.
    + intros (n & Hn & Hseq). apply elem_of_seq in Hseq. exists n.
      split_and!; [lia| |by apply (iterate_power _ _ n IH)].
      destruct hi as [h|]; simpl; [|done]. apply Nat.leb_le in Hhi. lia.
    + intros (n & Hlo & Hin & Hn). exists n.
      split; [by apply (iterate_power _ _ n IH)|]. apply elem_of_seq.
      destruct hi as [h|]; simpl in *; [lia|].
      apply Nat.ltb_lt in Hhi. apply power_shrinks in Hn; [lia|].
      intros c1 c2 Hm. apply IH in Hm.
      destruct (ends_consumed (λ _, true) r c1 c2 Hm) as (u & -> & Hu).
      pose proof (tally_le_length (λ _, true) u). rewrite length_app. lia.
Qed.

Lemma patterns_well_formed :
  Forall (λ r, well_formed r = true)
    [PHONE_REGEX; AADHAR_REGEX; PASSPORT_REGEX; UPI_REGEX; EMAIL_REGEX].
Proof. repeat constructor. Qed.

Lemma last_cons_or {A} (prev : option A) x pre :
  match last (x :: pre) with Some y => Some y | None => prev end
  = match last pre with Some y => Some y | None => Some x end.
Proof. rewrite last_cons. by destruct (last pre). Qed.

Lemma cursors_positions prev s c :
  In c (cursors prev s) ↔
  ∃ pre, s = pre ++ c.2 ∧ c.1 = match last pre with Some x => Some x | None => prev end.
Proof.
  revert prev. induction s as [|x t IH]; intros prev; simpl.
  - split.
    + intros [<-|[]]. by exists [].
    + intros (pre & E & Hp). symmetry in E.
      apply app_eq_nil in E as [-> E]. left. destruct c. simpl in *. by subst.
  - rewrite IH. split.
    + intros [<-|(pre & -> & Hp)]; [by exists []|].
      exists (x :: pre). split; [done|]. by rewrite last_cons_or.
    + intros ([|y pre] & E & Hp).
      * left. destruct c. simpl in *. by subst.
      * injection E as <- ->. right. exists pre. split; [done|].
        by rewrite last_cons_or in Hp.
Qed.

(** [search] finds a match exactly when there is one somewhere in the
    string. *)
Lemma search_matches r s :
  well_formed r = true →
  search r s = true ↔
  ∃ pre rest c', s = pre ++ rest ∧ matches r (position pre rest) c'.
Proof.
  intros Hwf. unfold search. rewrite existsb_exists. split.
  - intros ([prev rest] & (pre & -> & Hp)%cursors_positions & Hm).
    simpl in Hp. unfold matches_at in Hm.
    destruct (ends r (prev, rest)) as [|c' l] eqn:E; [done|].
    exists pre, rest, c'. split; [done|]. apply ends_matches; [done|].
    unfold position. replace (last pre) with prev; [rewrite E; left|].
    by destruct (last pre).
  - intros (pre & rest & c' & -> & Hm%ends_matches); [|done].
    exists (position pre rest). split.
    + apply cursors_positions. exists pre. split; [done|]. simpl.
      by destruct (last pre).
    + unfold matches_at. by destruct (ends r (position pre rest)); [apply elem_of_nil in Hm|].
Qed.

(** ** The phone pattern in words *)

Lemma power_chars p n prev s c' :
  power (matches (Chr p)) n (prev, s) c' ↔
  ∃ tok post, s = tok ++ post ∧ length tok = n ∧
              Forall (λ c, p c = true) tok ∧
              c' = (match last tok with Some x => Some x | None => prev end, post).
Proof.
  revert prev s. induction n as [|n IH]; intros prev s; simpl.
  - split.
    + intros ->. exists [], s. by repeat split.
    + intros (tok & post & -> & ->%nil_length_inv & _ & ->). done.
  - split.
    + intros (c1 & (x & t & -> & Hp & ->) & (tok & post & -> & Hl & Hf & ->)%IH).
      exists (x :: tok), post. split_and!; [done|simpl; lia|by constructor|].
      by rewrite last_cons_or.
    + intros ([|x tok] & post & -> & Hl & Hf & ->); [done|].
      apply Forall_cons in Hf as [Hp Hf]. exists (Some x, tok ++ post).
      split; [by exists x, (tok ++ post)|]. apply IH.
      exists tok, post. split_and!; [done|simpl in Hl; lia|done|].
      by rewrite last_cons_or.
Qed.

Lemma decimal_is_word : class_within is_decimal is_word = true.
Proof. vm_compute. reflexivity. Qed.

(** [PHONE_REGEX] is found exactly in the strings that contain a run of
    ten digits as a whole token. *)
Lemma phone_search_spec s : search PHONE_REGEX s = true ↔ ten_digit_token s.
Proof.
  rewrite search_matches by done. unfold ten_digit_token. split.
  - intros (pre & rest & c' & -> & c1 & [Hb ->] & c2 &
            (n & Hlo & Hhi & Hpow) & c3 & [Hb2 ->] & ->).
    simpl in Hhi. assert (n = 10) as -> by lia.
    apply power_chars in Hpow as (tok & post & -> & Hl & Hf & ->).
    exists pre, tok, post. split_and!; [done..| |].
    + destruct tok as [|x tok]; [done|]. apply Forall_cons in Hf as [Hx _].
      unfold at_boundary in Hb. unfold word_after at 1 in Hb. simpl in Hb.
      rewrite (class_within_sound _ _ _ decimal_is_word Hx) in Hb.
      by destruct (word_before _).
    + destruct (last tok) as [y|] eqn:L; [|by apply last_None in L; subst].
      unfold at_boundary in Hb2. unfold word_before at 1 in Hb2. simpl in Hb2.
      apply last_Some_elem_of in L. rewrite Forall_forall in Hf.
      rewrite (class_within_sound _ _ _ decimal_is_word (Hf y L)) in Hb2.
      unfold word_after in *. simpl in *. by destruct post as [|z post]; [|destruct (is_word z)].
  - intros (pre & tok & post & -> & Hl & Hf & Hw1 & Hw2).
    exists pre, (tok ++ post), (match last tok with Some x => Some x | None => last pre end, post).
    split; [done|].
    exists (position pre (tok ++ post)). split.
    { split; [|done]. unfold at_boundary. rewrite Hw1.
      destruct tok as [|x tok]; [done|]. apply Forall_cons in Hf as [Hx _].
      unfold word_after. simpl.
      by rewrite (class_within_sound _ _ _ decimal_is_word Hx). }
    eexists. split.
    { exists 10. split_and!; [done|simpl; lia|]. apply power_chars.
      exists tok, post. split_and!; done. }
    eexists. split; [|done]. split; [|done].
    destruct (last tok) as [y|] eqn:L; [|by apply last_None in L; subst].
    unfold at_boundary. unfold word_before at 1. simpl.
    apply last_Some_elem_of in L. rewrite Forall_forall in Hf.
    rewrite (class_within_sound _ _ _ decimal_is_word (Hf y L)).
    unfold word_after in *. simpl in *.
    by destruct post as [|z post]; [|destruct (is_word z)].
Qed.

(** [UPI_REGEX] is found exactly in the strings of shape [local@domain]. *)
Lemma upi_search_spec s : search UPI_REGEX s = true ↔ local_at_domain s.
Proof.
  rewrite search_matches by done. unfold local_at_domain. split.
  - intros (pre & rest & c' & -> & c1 & (n & Hn & _ & Hloc) & c2 &
            (a & t & Ha & Hat & ->) & c3 & (m & Hm & _ & Hdom) & ->).
    apply power_chars in Hloc as (tok1 & post1 & -> & Hl1 & Hf1 & ->).
    simpl in Ha. subst post1.
    apply power_chars in Hdom as (tok2 & post2 & -> & Hl2 & Hf2 & _).
    destruct tok2 as [|y tok2]; [simpl in Hl2; lia|].
    apply Forall_cons in Hf2 as [Hy _].
    destruct (last tok1) as [x|] eqn:L;
      [|apply last_None in L; subst; simpl in Hn; lia].
    apply last_Some in L as (init & ->).
    apply Forall_app in Hf1 as [_ Hx]. rewrite Forall_singleton in Hx.
    apply bool_decide_eq_true in Hat as <-.
    exists (pre ++ init), x, y, (tok2 ++ post2).
    split_and!; [|done..]. by rewrite <- !(assoc_L (++)).
  - intros (pre & x & y & post & -> & Hx & Hy).
    exists pre, (x :: "@"%char :: y :: post), (Some y, post). split; [done|].
    exists (Some x, "@"%char :: y :: post). split.
    { exists 1. split_and!; [done..|]. simpl. eexists. split; [|done].
      by exists x, ("@"%char :: y :: post). }
    exists (Some "@"%char, y :: post). split.
    { by exists "@"%char, (y :: post). }
    eexists. split; [|done].
    exists 1. split_and!; [done..|]. simpl. eexists. split; [|done].
    by exists y, post.
Qed.

(** ** Facts about the string operations *)

Lemma lstrip_nil s : lstrip s = [] ↔ blank s.
Proof.
  unfold blank. induction s as [|c t IH]; simpl; [by split|].
  destruct (is_space c) eqn:E.
  - rewrite IH. split; [by constructor|by inversion 1].
  - split; [done|]. inversion 1; congruence.
Qed.

Lemma lstrip_blank s : blank (lstrip s) → blank s.
Proof.
  unfold blank. induction s as [|c t IH]; simpl; [done|].
  destruct (is_space c) eqn:E; [by constructor; auto|].
  inversion 1; congruence.
Qed.

Lemma reverse_eq_nil {A} (l : list A) : reverse l = [] ↔ l = [].
Proof.
  split; [|by intros ->].
  intros H. apply nil_length_inv. by rewrite <- length_reverse, H.
Qed.

Lemma rstrip_nil s : rstrip s = [] ↔ blank s.
Proof.
  unfold rstrip. rewrite reverse_eq_nil, lstrip_nil. apply Forall_reverse.
Qed.

(** [value.strip()] is empty exactly for all-whitespace strings. *)
Lemma strip_nil s : strip s = [] ↔ blank s.
Proof.
  unfold strip. rewrite rstrip_nil. split; [apply lstrip_blank|].
  intros H. apply lstrip_nil in H as ->. constructor.
Qed.

Lemma not_blank_witness s x : x ∈ s → is_space x = false → strip s ≠ [].
Proof.
  intros Hx Hs H%strip_nil. unfold blank in H.
  rewrite Forall_forall in H. specialize (H x Hx). congruence.
Qed.

(** A string with a character of a class disjoint from whitespace is
    not blank. *)
Lemma tally_not_blank P s :
  class_within P (λ c, negb (is_space c)) = true →
  0 < tally P s → strip s ≠ [].
Proof.
  intros HP (x & Hx & HPx)%tally_positive.
  apply (not_blank_witness s x Hx).
  apply (class_within_sound _ _ _ HP) in HPx. by destruct (is_space x).
Qed.

Lemma split_on_length sep s :
  length (split_on sep s) = S (tally (is_char sep) s).
Proof.
  induction s as [|c t IH]; simpl; [done|].
  destruct (is_char sep c); simpl; [by rewrite IH|].
  destruct (split_on sep t); simpl in *; lia.
Qed.

Lemma slice_to_length n s : length (slice_to n s) ≤ n.
Proof. unfold slice_to. rewrite length_take. lia. Qed.

Lemma slice_last_length n s : length (slice_last n s) ≤ n.
Proof. unfold slice_last. rewrite length_drop. lia. Qed.

(** ** Standalone redactions leave nothing for their own pattern *)

Lemma need_phone : need is_decimal PHONE_REGEX = 10.
Proof. vm_compute. reflexivity. Qed.

Lemma need_aadhar : need is_decimal AADHAR_REGEX = 12.
Proof. vm_compute. reflexivity. Qed.

Lemma need_passport : need is_decimal PASSPORT_REGEX = 7.
Proof. vm_compute. reflexivity. Qed.

Lemma need_upi : need (is_char "@") UPI_REGEX = 1.
Proof. vm_compute. reflexivity. Qed.

Lemma need_email : need (is_char "@") EMAIL_REGEX = 1.
Proof. vm_compute. reflexivity. Qed.

Lemma tally_XS P n : P "X"%char = false → tally P (XS n) = 0.
Proof. apply tally_replicate_none. Qed.

Lemma phone_redacted_clean v : search PHONE_REGEX (redact_phone v) = false.
Proof.
  destruct (search _ _) eqn:E; [|done].
  apply (search_need is_decimal) in E. rewrite need_phone in E.
  unfold redact_phone in E. rewrite !tally_app in E.
  pose proof (tally_le_length is_decimal (slice_to 2 v)).
  pose proof (tally_le_length is_decimal (slice_last 2 v)).
  pose proof (slice_to_length 2 v). pose proof (slice_last_length 2 v).
  change (tally is_decimal (py "XXXXXX")) with 0 in E. lia.
Qed.

Lemma aadhar_redacted_clean v : search AADHAR_REGEX (redact_aadhar v) = false.
Proof.
  destruct (search _ _) eqn:E; [|done].
  apply (search_need is_decimal) in E. rewrite need_aadhar in E.
  unfold redact_aadhar in E. rewrite !tally_app in E.
  pose proof (tally_le_length is_decimal (slice_last 4 (remove_char " " v))).
  pose proof (slice_last_length 4 (remove_char " " v)).
  change (tally is_decimal (py "XXXXXXXX")) with 0 in E. lia.
Qed.

Lemma passport_redacted_shape v r :
  redact_passport v = Ok r → ∃ a b, r = a :: py "XXXXXX" ++ [b].
Proof.
  unfold redact_passport, index_first, index_last.
  destruct v as [|a v]; simpl; [done|].
  destruct (last (a :: v)) as [b|]; simpl; [|done].
  intros [= <-]. eauto.
Qed.

Lemma passport_redacted_clean v r :
  redact_passport v = Ok r → search PASSPORT_REGEX r = false.
Proof.
  intros (a & b & ->)%passport_redacted_shape.
  destruct (search _ _) eqn:E; [|done].
  apply (search_need is_decimal) in E. rewrite need_passport in E.
  simpl in E. destruct (is_decimal a), (is_decimal b); simpl in E; lia.
Qed.

Lemma upi_redacted_clean : search UPI_REGEX (py "[REDACTED_UPI]") = false.
Proof. vm_compute. reflexivity. Qed.

(** What a match guarantees about the value. *)
Lemma decimal_not_space : class_within is_decimal (λ c, negb (is_space c)) = true.
Proof. vm_compute. reflexivity. Qed.

Lemma at_not_space : class_within (is_char "@") (λ c, negb (is_space c)) = true.
Proof. vm_compute. reflexivity. Qed.

Lemma phone_not_blank v : search PHONE_REGEX v = true → strip v ≠ [].
Proof.
  intros E%(search_need is_decimal). rewrite need_phone in E.
  apply (tally_not_blank is_decimal); [apply decimal_not_space|lia].
Qed.

Lemma upi_has_domain v :
  search UPI_REGEX v = true → ∃ d, split_on "@" v !! 1 = Some d.
Proof.
  intros E%(search_need (is_char "@")). rewrite need_upi in E.
  apply lookup_lt_is_Some_2. rewrite split_on_length. lia.
Qed.

Lemma upi_not_blank v : search UPI_REGEX v = true → strip v ≠ [].
Proof.
  intros E%(search_need (is_char "@")). rewrite need_upi in E.
  apply (tally_not_blank (is_char "@")); [apply at_not_space|lia].
Qed.

(** ** The chain of [match_field] against the rule table *)

Lemma key_in_singleton key k : key_in key [k] = key_is key k.
Proof.
  unfold key_in, key_is. apply bool_decide_ext.
  by rewrite list_elem_of_singleton.
Qed.

Lemma key_in_true key ks : key_in key ks = true → key ∈ ks.
Proof. unfold key_in. apply bool_decide_eq_true_1. Qed.

Lemma match_field_dispatch st key v : match_field st key v = dispatch st key v.
Proof.
  unfold match_field, dispatch, classify, first_rule, rule_table, applies.
  simpl. rewrite !key_in_singleton.
  destruct (key_in key ["phone"; "contact"]) eqn:K1.
  { known_key K1; by destruct (search PHONE_REGEX v). }
  rewrite andb_false_r. simpl.
  destruct (key_in key ["aadhar"; "address_proof"]) eqn:K2.
  { known_key K2; by destruct (search AADHAR_REGEX v). }
  rewrite andb_false_r. simpl.
  destruct (key_is key "passport") eqn:K3.
  { known_key K3. destruct (search PASSPORT_REGEX v); simpl; [|done].
    by destruct (redact_passport v). }
  rewrite andb_false_r. simpl.
  destruct (key_is key "upi_id") eqn:K4.
  { known_key K4. unfold upi_handle.
    destruct (search UPI_REGEX v) eqn:U; simpl; [|done].
    destruct (upi_has_domain v U) as (d & Hd).
    unfold index_nat. rewrite Hd. simpl.
    by destruct (bool_decide (length (split_on "." d) = 1)). }
  rewrite andb_false_r. simpl.
  unfold several_tokens, long_text.
  destruct (key_is key "name") eqn:K5.
  { known_key K5. by destruct (bool_decide (1 < length (split_ws (strip v)))). }
  simpl.
  destruct (key_is key "email") eqn:K6.
  { known_key K6. by destruct (search EMAIL_REGEX v). }
  rewrite andb_false_r. simpl.
  destruct (key_is key "address") eqn:K7.
  { known_key K7. by destruct (bool_decide (10 < length (strip v))). }
  simpl.
  by destruct (key_in key ["ip_address"; "device_id"]).
Qed.

(** ** Verdicts *)

Lemma classify_phone key v :
  key ∈ ["phone"; "contact"] →
  classify key v =
    if search PHONE_REGEX v then Ok (Standalone (redact_phone v)) else Ok Nothing.
Proof.
  intros H. unfold classify, first_rule, rule_table, applies. simpl.
  set_unfold in H. destruct_or?; subst; try done; eval_keys;
    by destruct (search PHONE_REGEX v).
Qed.

Lemma classify_upi v :
  classify "upi_id" v =
    if upi_handle v then Ok (Standalone (py "[REDACTED_UPI]")) else Ok Nothing.
Proof.
  unfold classify, first_rule, rule_table, applies. simpl. eval_keys.
  by destruct (upi_handle v).
Qed.

Lemma classify_name v :
  classify "name" v = if several_tokens v then Ok (Candidate "name") else Ok Nothing.
Proof.
  unfold classify, first_rule, rule_table, applies. simpl. eval_keys.
  by destruct (several_tokens v).
Qed.

Lemma classify_email v :
  classify "email" v =
    if search EMAIL_REGEX v then Ok (Candidate "email") else Ok Nothing.
Proof.
  unfold classify, first_rule, rule_table, applies. simpl. eval_keys.
  by destruct (search EMAIL_REGEX v).
Qed.

Lemma classify_address v :
  classify "address" v = if long_text v then Ok (Candidate "address") else Ok Nothing.
Proof.
  unfold classify, first_rule, rule_table, applies. simpl. eval_keys.
  by destruct (long_text v).
Qed.

Lemma classify_device key v :
  key ∈ ["ip_address"; "device_id"] →
  classify key v = Ok (Candidate "device_context").
Proof.
  intros H. unfold classify, first_rule, rule_table, applies. simpl.
  set_unfold in H. destruct_or?; subst; try done; by eval_keys.
Qed.

Lemma rule_fields_disjoint r r' k :
  r ∈ rule_table → r' ∈ rule_table → k ∈ fields r → k ∈ fields r' → r = r'.
Proof.
  unfold rule_table. intros H H'. set_unfold in H. set_unfold in H'.
  destruct_or?; subst; try done; simpl; intros Hk Hk';
    set_unfold in Hk; set_unfold in Hk'; destruct_or?; subst; done.
Qed.

Lemma first_rule_Some key v r :
  first_rule key v = Some r →
  r ∈ rule_table ∧ key ∈ fields r ∧ shape r v = true.
Proof.
  unfold first_rule. intros [Hr Ha]%find_some. unfold applies in Ha.
  apply andb_true_iff in Ha as [Hk%key_in_true Hs].
  split_and!; [by apply list_elem_of_In|done..].
Qed.

(** Which keys can receive which verdict. *)
Lemma classify_inv key v vd :
  classify key v = Ok vd →
  match vd with
  | Standalone _ => key ∈ standalone_keys
  | Candidate c =>
      (key = "name" ∧ c = "name") ∨ (key = "email" ∧ c = "email") ∨
      (key = "address" ∧ c = "address") ∨
      (key ∈ ["ip_address"; "device_id"] ∧ c = "device_context")
  | Nothing => True
  end.
Proof.
  unfold classify, first_rule. 
  destruct (List.find _ _) as [r|] eqn:F; [|by intros [= <-]].
  apply find_some in F as [Hr Ha]. unfold applies in Ha.
  apply andb_true_iff in Ha as [Hk%key_in_true _].
  unfold rule_table in Hr. simpl in Hr.
  unfold standalone_keys.
  destruct_or?; subst; try done; simpl in *;
    try (destruct (redact_passport v); simpl; [|done]);
    intros [= <-]; set_unfold in Hk; set_unfold; tauto.
Qed.

Lemma redact_passport_ok v : v ≠ [] → ∃ r, redact_passport v = Ok r.
Proof.
  unfold redact_passport, index_first, index_last.
  destruct v as [|a v]; [done|]. intros _. simpl.
  destruct (last (a :: v)) eqn:L; simpl; [eauto|].
  by apply last_None in L.
Qed.

(** On a value that is not blank, no rule raises. *)
Lemma classify_ok key v : strip v ≠ [] → ∃ vd, classify key v = Ok vd.
Proof.
  intros Hv. unfold classify.
  destruct (first_rule key v) as [r|] eqn:F; [|eauto].
  apply find_some in F as [Hr _]. unfold rule_table in Hr. simpl in Hr.
  destruct_or?; subst; try done; simpl; eauto.
  destruct (redact_passport_ok v) as (r & ->); [by intros ->|]. simpl. eauto.
Qed.

Lemma field_step_verdict st item :
  field_step st item = Ok (apply_verdict item.1 (verdict_of item) st).
Proof.
  destruct item as [key value]. unfold field_step, verdict_of. simpl.
  destruct value as [| | | |s]; try done.
  unfold skipped. case_bool_decide as Hs; [done|].
  rewrite match_field_dispatch. unfold dispatch.
  destruct (classify_ok key s Hs) as (vd & ->). done.
Qed.

Lemma for_each_field_step l st : for_each field_step l st = Ok (sweep l st).
Proof.
  revert st. induction l as [|item l IH]; intros st; simpl; [done|].
  rewrite field_step_verdict. simpl. apply IH.
Qed.

Lemma scan_sweep data :
  scan data = Ok (sweep (map_to_list data) (Locals data false ∅ [])).
Proof. apply for_each_field_step. Qed.

(** ** What step 1 leaves behind *)

Lemma sweep_cons item l st :
  sweep (item :: l) st = sweep l (apply_verdict item.1 (verdict_of item) st).
Proof. done. Qed.

Lemma redacted_apply_verdict k vd st :
  redacted_data (apply_verdict k vd st) =
    match vd with
    | Standalone x => <[k := VStr x]> (redacted_data st)
    | _ => redacted_data st
    end.
Proof. by destruct vd. Qed.

Lemma sweep_redacted_notin l st k :
  k ∉ l.*1 → redacted_data (sweep l st) !! k = redacted_data st !! k.
Proof.
  revert st. induction l as [|[k' v'] l IH]; intros st Hk; [done|].
  rewrite fmap_cons in Hk. apply not_elem_of_cons in Hk as [Hne Hk].
  rewrite sweep_cons, IH by done.
  rewrite redacted_apply_verdict. simpl.
  destruct (verdict_of (k', v')); try done.
  by apply lookup_insert_ne.
Qed.

Lemma sweep_redacted_in l st k v :
  NoDup l.*1 → (k, v) ∈ l →
  redacted_data (sweep l st) !! k =
    match verdict_of (k, v) with
    | Standalone x => Some (VStr x)
    | _ => redacted_data st !! k
    end.
Proof.
  revert st. induction l as [|[k' v'] l IH]; intros st Hnd Hin.
  { by apply elem_of_nil in Hin. }
  rewrite fmap_cons in Hnd. apply NoDup_cons in Hnd as [Hk' Hnd].
  rewrite sweep_cons. apply elem_of_cons in Hin as [[= <- <-]|Hin].
  - rewrite sweep_redacted_notin by done.
    rewrite redacted_apply_verdict. simpl.
    destruct (verdict_of (k, v)); try done. apply lookup_insert_eq.
  - rewrite (IH _ Hnd Hin). destruct (verdict_of (k, v)); try done;
      rewrite redacted_apply_verdict; simpl;
      destruct (verdict_of (k', v')); try done;
      apply lookup_insert_ne; intros ->; apply Hk';
      apply list_elem_of_fmap; by exists (k, v).
Qed.

Lemma sweep_categories l st c :
  c ∈ combinatorial_keys (sweep l st) ↔
  c ∈ combinatorial_keys st ∨ ∃ item, item ∈ l ∧ verdict_of item = Candidate c.
Proof.
  revert st. induction l as [|item l IH]; intros st.
  { simpl. split; [by left|]. intros [?|(? & ?%elem_of_nil & _)]; done. }
  rewrite sweep_cons, IH. destruct (verdict_of item) eqn:V; simpl.
  - split; intros [?|(i & Hi & Hv)]; eauto.
    + right. exists i. split; [by right|done].
    + apply elem_of_cons in Hi as [->|Hi]; [congruence|eauto].
  - rewrite elem_of_union, elem_of_singleton.
    split; intros [H|(i & Hi & Hv)].
    + destruct H as [->|H]; [|by left]. right. exists item. split; [left|done].
    + right. exists i. split; [by right|done].
    + by left; right.
    + apply elem_of_cons in Hi as [->|Hi]; [|eauto].
      left. left. congruence.
  - split; intros [?|(i & Hi & Hv)]; eauto.
    + right. exists i. split; [by right|done].
    + apply elem_of_cons in Hi as [->|Hi]; [congruence|eauto].
Qed.

Lemma sweep_pii l st :
  is_pii_found (sweep l st) = true ↔
  is_pii_found st = true ∨ ∃ item x, item ∈ l ∧ verdict_of item = Standalone x.
Proof.
  revert st. induction l as [|item l IH]; intros st.
  { simpl. split; [by left|]. intros [?|(? & ? & ?%elem_of_nil & _)]; done. }
  rewrite sweep_cons, IH. destruct (verdict_of item) eqn:V; simpl.
  - split; [intros _|by left]. right. exists item, redacted.
    split; [left|done].
  - split; intros [?|(i & x & Hi & Hv)]; eauto.
    + right. exists i, x. split; [by right|done].
    + apply elem_of_cons in Hi as [->|Hi]; [congruence|eauto].
  - split; intros [?|(i & x & Hi & Hv)]; eauto.
    + right. exists i, x. split; [by right|done].
    + apply elem_of_cons in Hi as [->|Hi]; [congruence|eauto].
Qed.




Section after_scan.
Context (data : gmap string value).

Lemma scan_scanned : scan data = Ok (scanned data).
Proof. apply scan_sweep. Qed.

Lemma categories_scanned : categories data = combinatorial_keys (scanned data).
Proof. unfold categories. by rewrite scan_scanned. Qed.

Lemma scanned_redacted k :
  redacted_data (scanned data) !! k =
    match data !! k with
    | Some v =>
        match verdict_of (k, v) with
        | Standalone x => Some (VStr x)
        | _ => Some v
        end
    | None => None
    end.
Proof.
  unfold scanned. destruct (data !! k) as [v|] eqn:E.
  - rewrite (sweep_redacted_in _ _ k v).
    + simpl. by rewrite E.
    + apply NoDup_fst_map_to_list.
    + by apply elem_of_map_to_list.
  - rewrite sweep_redacted_notin; [done|].
    intros ((k' & v) & -> & H%elem_of_map_to_list)%list_elem_of_fmap.
    simpl in E. congruence.
Qed.

Lemma scanned_categories c :
  c ∈ combinatorial_keys (scanned data) ↔
  ∃ k v, data !! k = Some v ∧ verdict_of (k, v) = Candidate c.
Proof.
  unfold scanned. rewrite sweep_categories. simpl. split.
  - intros [?%elem_of_empty|([k v] & H%elem_of_map_to_list & Hv)]; [done|eauto].
  - intros (k & v & H & Hv). right. exists (k, v).
    split; [by apply elem_of_map_to_list|done].
Qed.

Lemma scanned_pii :
  is_pii_found (scanned data) = true ↔
  ∃ k v x, data !! k = Some v ∧ verdict_of (k, v) = Standalone x.
Proof.
  unfold scanned. rewrite sweep_pii. simpl. split.
  - intros [?|([k v] & x & H%elem_of_map_to_list & Hv)]; [done|eauto].
  - intros (k & v & x & H & Hv). right. exists (k, v), x.
    split; [by apply elem_of_map_to_list|done].
Qed.


End after_scan.

(** ** The name and email transforms *)

Lemma split_ws_tokens s : Forall token (split_ws s).
Proof.
  induction s as [|c t IH]; simpl; [constructor|].
  destruct (is_space c) eqn:Hc; [done|].
  destruct t as [|d t']; [by repeat constructor|].
  destruct (is_space d) eqn:Hd.
  - constructor; [by repeat constructor|done].
  - destruct (split_ws (d :: t')) as [|w ws]; [by repeat constructor|].
    apply Forall_cons in IH as [[_ Hw] Hws].
    constructor; [|done]. split; [done|by constructor].
Qed.

Lemma split_ws_token w : token w → split_ws w = [w].
Proof.
  intros [Hne Hw]. induction w as [|c t IH]; [done|].
  apply Forall_cons in Hw as [Hc Ht]. simpl. rewrite Hc.
  destruct t as [|d t']; [done|].
  apply Forall_cons in Ht as Ht'. destruct Ht' as [Hd _]. rewrite Hd.
  by rewrite IH.
Qed.

Lemma split_ws_token_space w rest :
  token w → split_ws (w ++ " "%char :: rest) = w :: split_ws rest.
Proof.
  intros [Hne Hw]. induction w as [|c t IH]; [done|].
  apply Forall_cons in Hw as [Hc Ht].
  change ((c :: t) ++ " "%char :: rest) with (c :: (t ++ " "%char :: rest)).
  cbn [split_ws]. rewrite Hc.
  destruct t as [|d t']; [done|].
  apply Forall_cons in Ht as Ht'. destruct Ht' as [Hd _].
  specialize (IH ltac:(done) Ht). cbn [app] in *.
  rewrite Hd. by rewrite IH.
Qed.

(** Splitting what [' '.join] made of tokens gives the tokens back. *)
Lemma split_ws_join ws : Forall token ws → split_ws (join " " ws) = ws.
Proof.
  induction ws as [|w ws IH]; intros H; [done|].
  apply Forall_cons in H as [Hw Hws].
  destruct ws as [|w' ws']; [by apply split_ws_token|].
  change (join " " (w :: w' :: ws')) with (w ++ " "%char :: join " " (w' :: ws')).
  rewrite split_ws_token_space by done. by rewrite IH.
Qed.

Lemma length_XS n : length (XS n) = n.
Proof. apply length_replicate. Qed.

Lemma masked_idemp p : masked (masked p) = masked p.
Proof. destruct p as [|c t]; [done|]. simpl. by rewrite length_XS. Qed.

Lemma masked_token w : token w → token (masked w).
Proof.
  intros [Hne Hw]. destruct w as [|c t]; [done|].
  apply Forall_cons in Hw as [Hc _]. split; [done|].
  constructor; [done|]. unfold XS. by apply Forall_replicate.
Qed.

Lemma mask_tokens_masked parts :
  Forall token parts → mask_tokens parts = Ok (masked <$> parts).
Proof.
  induction parts as [|p ps IH]; intros H; [done|].
  apply Forall_cons in H as [[Hne _] Hps]. simpl.
  destruct p as [|c t]; [done|]. simpl.
  rewrite IH by done. simpl. by rewrite Nat.sub_0_r.
Qed.

(** [redact_name] never raises, and has this closed form. *)
Lemma redact_name_ok name :
  redact_name name = Ok (join " " (masked <$> split_ws name)).
Proof.
  unfold redact_name. by rewrite mask_tokens_masked by apply split_ws_tokens.
Qed.

Lemma redact_name_idemp name r : redact_name name = Ok r → redact_name r = Ok r.
Proof.
  rewrite redact_name_ok. intros [= <-]. rewrite redact_name_ok.
  assert (Forall token (masked <$> split_ws name)) as Ht.
  { apply Forall_fmap. eapply Forall_impl; [apply split_ws_tokens|].
    intros w. apply masked_token. }
  rewrite split_ws_join by done. do 2 f_equal.
  rewrite <- list_fmap_compose. apply list_fmap_ext.
  intros _ w _. apply masked_idemp.
Qed.

Lemma split_on_once_cases sep s :
  (split_on_once sep s = [s] ∧ sep ∉ s) ∨
  (∃ a b, split_on_once sep s = [a; b] ∧ s = a ++ sep :: b ∧ sep ∉ a).
Proof.
  induction s as [|c t IH]; simpl.
  { left. split; [done|apply not_elem_of_nil]. }
  unfold is_char. case_bool_decide as Hc.
  - right. exists [], t. subst. split_and!; [done..|apply not_elem_of_nil].
  - destruct IH as [[-> Hn]|(a & b & -> & -> & Hn)].
    + left. split; [done|]. by apply not_elem_of_cons.
    + right. exists (c :: a), b. split_and!; [done..|]. by apply not_elem_of_cons.
Qed.

Lemma split_on_once_app sep a b :
  sep ∉ a → split_on_once sep (a ++ sep :: b) = [a; b].
Proof.
  induction a as [|c a IH]; simpl; intros Hn.
  - unfold is_char. by rewrite bool_decide_eq_true_2.
  - apply not_elem_of_cons in Hn as [Hc Hn]. unfold is_char.
    rewrite bool_decide_eq_false_2 by done. by rewrite IH.
Qed.

Lemma masked_local_idemp l : masked_local (masked_local l) = masked_local l.
Proof.
  unfold masked_local. destruct (bool_decide (2 < length l)) eqn:Hl.
  - destruct l as [|c t]; [done|].
    destruct (last (c :: t)) as [d|] eqn:L; [|by apply last_None in L].
    by rewrite bool_decide_eq_true_2 by (simpl; lia).
  - by rewrite length_XS, Hl.
Qed.

Lemma masked_local_no_at l :
  ("@"%char) ∉ l → ("@"%char) ∉ masked_local l.
Proof.
  intros Hn. unfold masked_local. case_bool_decide as Hl.
  - destruct l as [|c t]; [apply not_elem_of_nil|].
    destruct (last (c :: t)) as [d|] eqn:L; [|apply not_elem_of_nil].
    apply last_Some_elem_of in L. set_unfold. intros H.
    destruct_or?; subst; try done; naive_solver.
  - unfold XS. intros [H _]%elem_of_replicate. done.
Qed.

(** [redact_email] never raises, and has this closed form. *)
Lemma redact_email_ok email :
  ((("@"%char) ∉ email) ∧ redact_email email = Ok (py "[REDACTED_EMAIL]")) ∨
  (∃ l d, email = l ++ "@"%char :: d ∧ (("@"%char) ∉ l) ∧
          redact_email email = Ok (masked_local l ++ "@"%char :: d)).
Proof.
  unfold redact_email, redact_email_body.
  destruct (split_on_once_cases "@" email) as [[-> Hn]|(l & d & -> & -> & Hn)].
  - left. by destruct email.
  - right. exists l, d. split_and!; [done..|]. simpl.
    unfold masked_local. case_bool_decide as Hl; [|done].
    destruct l as [|c t]; [simpl in Hl; lia|]. simpl.
    unfold index_last.
    destruct (last (c :: t)) as [e|] eqn:L; [done|by apply last_None in L].
Qed.

Lemma redact_email_idemp email r :
  redact_email email = Ok r → redact_email r = Ok r.
Proof.
  destruct (redact_email_ok email) as [[_ ->]|(l & d & -> & Hn & ->)];
    intros [= <-]; [by vm_compute|].
  destruct (redact_email_ok (masked_local l ++ "@"%char :: d))
    as [[Hno _]|(l' & d' & E & Hn' & ->)].
  { exfalso. apply Hno. apply elem_of_app. right. left. }
  assert ([l'; d'] = [masked_local l; d]) as [= -> ->].
  { rewrite <- (split_on_once_app "@" l' d') by done.
    rewrite <- E. apply split_on_once_app. by apply masked_local_no_at. }
  by rewrite masked_local_idemp.
Qed.

Lemma transform_ok key s : ∃ r, transform key s = Ok r.
Proof.
  unfold transform. repeat case_match; eauto.
  - rewrite redact_name_ok. eauto.
  - destruct (redact_email_ok s) as [[_ ->]|(l & d & _ & _ & ->)]; eauto.
Qed.

Lemma transform_idemp key s r : transform key s = Ok r → transform key r = Ok r.
Proof.
  unfold transform. repeat case_match.
  - apply redact_name_idemp.
  - apply redact_email_idemp.
  - by intros [= <-].
  - by intros [= <-].
Qed.

(** ** What step 3 does *)

Lemma redact_field_ok st key : redact_field st key = Ok (apply_redaction st key).
Proof.
  unfold redact_field, apply_redaction, transform.
  destruct (redacted_data st !! key) as [[| | | |s]|]; try done.
  destruct (key_is key "name").
  { by rewrite redact_name_ok. }
  destruct (key_is key "email").
  { by destruct (redact_email_ok s) as [[_ ->]|(l & d & _ & _ & ->)]. }
  by destruct (key_is key "address").
Qed.

Lemma for_each_redact_field ks st :
  for_each redact_field ks st = Ok (redact_all ks st).
Proof.
  revert st. induction ks as [|k ks IH]; intros st; simpl; [done|].
  rewrite redact_field_ok. simpl. apply IH.
Qed.

Lemma apply_redaction_lookup st key k :
  redacted_data (apply_redaction st key) !! k =
    if decide (k = key) then redacted_value key (redacted_data st !! key)
    else redacted_data st !! k.
Proof.
  unfold apply_redaction, redacted_value.
  destruct (redacted_data st !! key) as [[| | | |s]|] eqn:E;
    try (case_decide; by subst).
  destruct (transform key s); simpl; [|case_decide; by subst].
  case_decide; subst; [apply lookup_insert_eq|by apply lookup_insert_ne].
Qed.

Lemma apply_redaction_flags st key :
  is_pii_found (apply_redaction st key) = is_pii_found st ∧
  combinatorial_keys (apply_redaction st key) = combinatorial_keys st.
Proof. unfold apply_redaction. by repeat case_match. Qed.

Lemma apply_redaction_assigned st key k :
  k ∈ assigned (apply_redaction st key) → k = key ∨ k ∈ assigned st.
Proof.
  unfold apply_redaction. repeat case_match; simpl; auto.
  intros [->|?]%elem_of_cons; auto.
Qed.

Lemma redact_all_flags ks st :
  is_pii_found (redact_all ks st) = is_pii_found st ∧
  combinatorial_keys (redact_all ks st) = combinatorial_keys st.
Proof.
  revert st. induction ks as [|k ks IH]; intros st; simpl; [done|].
  destruct (IH (apply_redaction st k)) as [-> ->]. apply apply_redaction_flags.
Qed.

Lemma redact_all_notin ks st k :
  k ∉ ks → redacted_data (redact_all ks st) !! k = redacted_data st !! k.
Proof.
  revert st. induction ks as [|k' ks IH]; intros st Hk; simpl; [done|].
  apply not_elem_of_cons in Hk as [Hne Hk]. rewrite IH by done.
  rewrite apply_redaction_lookup. by rewrite decide_False.
Qed.

Lemma redact_all_in ks st k :
  NoDup ks → k ∈ ks →
  redacted_data (redact_all ks st) !! k = redacted_value k (redacted_data st !! k).
Proof.
  revert st. induction ks as [|k' ks IH]; intros st Hnd Hk.
  { by apply elem_of_nil in Hk. }
  apply NoDup_cons in Hnd as [Hk' Hnd]. simpl.
  apply elem_of_cons in Hk as [->|Hk].
  - rewrite redact_all_notin by done. rewrite apply_redaction_lookup.
    by rewrite decide_True.
  - rewrite IH by done. rewrite apply_redaction_lookup.
    rewrite decide_False; [done|]. by intros ->.
Qed.

Lemma redact_all_assigned ks st k :
  k ∈ assigned (redact_all ks st) → k ∈ ks ∨ k ∈ assigned st.
Proof.
  revert st. induction ks as [|k' ks IH]; intros st; simpl; [by right|].
  intros [?|[->|?]%apply_redaction_assigned]%IH.
  - left. by right.
  - left. left.
  - by right.
Qed.


(** ** The whole run *)

Lemma run_record_finished data : run_record data = Ok (finished data).
Proof.
  unfold run_record, finished.
  change (for_each field_step (map_to_list data) (Locals data false ∅ []))
    with (scan data).
  rewrite scan_scanned. simpl.
  destruct (escalate (scanned data)) as [st F]. simpl.
  case_bool_decide as HF; [apply for_each_redact_field|].
  subst. by rewrite elements_empty.
Qed.

Lemma process_record_finished data :
  process_record data =
    Ok (redacted_data (finished data), is_pii_found (finished data)).
Proof. unfold process_record. by rewrite run_record_finished. Qed.

Lemma elem_of_fields_of_categories cats k :
  k ∈ fields_of_categories cats ↔
  (k = "name" ∧ "name" ∈ cats) ∨ (k = "email" ∧ "email" ∈ cats) ∨
  (k = "address" ∧ "address" ∈ cats) ∨
  (k ∈ ["ip_address"; "device_id"] ∧ "device_context" ∈ cats).
Proof.
  unfold fields_of_categories. repeat case_bool_decide; set_unfold; naive_solver.
Qed.

Lemma escalated_fields cats k : k ∈ fields_of_categories cats → k ∈ escalated_keys.
Proof.
  rewrite elem_of_fields_of_categories. unfold escalated_keys.
  set_unfold. naive_solver.
Qed.

Lemma standalone_not_escalated k : k ∈ standalone_keys → k ∉ escalated_keys.
Proof.
  unfold standalone_keys, escalated_keys. set_unfold.
  intros H H'. destruct_or?; subst; done.
Qed.

Lemma verdict_of_standalone k v x :
  verdict_of (k, v) = Standalone x → k ∈ standalone_keys.
Proof.
  unfold verdict_of. simpl. destruct v as [| | | |s]; try done.
  destruct (bool_decide (strip s = [])); [done|].
  destruct (classify k s) as [vd|] eqn:C; [|done].
  intros ->. by apply classify_inv in C.
Qed.

(** Step 1 never touches the fields of step 3. *)
Lemma scanned_escalated data k :
  k ∈ escalated_keys → redacted_data (scanned data) !! k = data !! k.
Proof.
  intros Hk. rewrite scanned_redacted. destruct (data !! k) as [v|]; [|done].
  destruct (verdict_of (k, v)) eqn:V; try done.
  apply verdict_of_standalone in V. by apply standalone_not_escalated in V.
Qed.

Lemma escalate_scanned data :
  escalate (scanned data) =
    if bool_decide (2 ≤ size (categories data))
    then (found_pii (scanned data), fields_of_categories (categories data))
    else (scanned data, ∅).
Proof. unfold escalate. by rewrite categories_scanned. Qed.

Lemma finished_escalated data k :
  2 ≤ size (categories data) → k ∈ fields_of_categories (categories data) →
  redacted_data (finished data) !! k = redacted_value k (data !! k).
Proof.
  intros Hsz Hk. unfold finished. rewrite escalate_scanned.
  rewrite bool_decide_eq_true_2 by done. simpl.
  rewrite redact_all_in; [|apply NoDup_elements|by apply elem_of_elements].
  simpl. f_equal. apply scanned_escalated. by eapply escalated_fields.
Qed.

Lemma finished_untouched data k :
  ¬ (2 ≤ size (categories data) ∧ k ∈ fields_of_categories (categories data)) →
  redacted_data (finished data) !! k = redacted_data (scanned data) !! k.
Proof.
  intros Hn. unfold finished. rewrite escalate_scanned.
  case_bool_decide as Hsz; simpl.
  - rewrite redact_all_notin; [done|]. rewrite elem_of_elements. tauto.
  - by rewrite elements_empty.
Qed.

Lemma finished_pii data :
  is_pii_found (finished data) =
    bool_decide (2 ≤ size (categories data)) || is_pii_found (scanned data).
Proof.
  unfold finished. rewrite escalate_scanned.
  case_bool_decide as Hsz; simpl.
  - by destruct (redact_all_flags
      (elements (fields_of_categories (categories data)))
      (found_pii (scanned data))) as [-> _].
  - by rewrite elements_empty.
Qed.

Lemma redacted_value_is_Some key o : is_Some (redacted_value key o) ↔ is_Some o.
Proof.
  unfold redacted_value. destruct o as [[| | | |s]|]; try done.
  destruct (transform key s); [|done]. split; eauto.
Qed.

Lemma scanned_is_Some data k :
  is_Some (redacted_data (scanned data) !! k) ↔ is_Some (data !! k).
Proof.
  rewrite scanned_redacted. destruct (data !! k) as [v|]; [|done].
  destruct (verdict_of (k, v)); split; eauto.
Qed.

Lemma finished_is_Some data k :
  is_Some (redacted_data (finished data) !! k) ↔ is_Some (data !! k).
Proof.
  destruct (decide (2 ≤ size (categories data) ∧
                    k ∈ fields_of_categories (categories data))) as [[H1 H2]|Hn].
  - rewrite finished_escalated by done. apply redacted_value_is_Some.
  - rewrite finished_untouched by done. apply scanned_is_Some.
Qed.

(** * The claims *)

(** C3.  For every record, [process_record] returns a record with
    exactly the keys of its input: no key is added, none is removed. *)
Theorem process_record_same_keys (data : gmap string value) :
  ∃ out is_pii, process_record data = Ok (out, is_pii) ∧ dom out = dom data.
Proof.
  eexists _, _. split; [apply process_record_finished|].
  apply set_eq. intros k. rewrite !elem_of_dom. apply finished_is_Some.
Qed.

(** C7.  For every record of JSON scalars [process_record] returns and
    raises nothing, and so does every round of step 1; a field whose
    value is not a string, or is an all-whitespace string, is skipped:
    the round leaves every local as it was and no rule gives a verdict. *)
Theorem process_record_never_raises (data : gmap string value)
    (st : locals) (key : string) (v : value) :
  (∃ out is_pii, process_record data = Ok (out, is_pii)) ∧
  (∃ st', field_step st (key, v) = Ok st') ∧
  ((∀ s, v = VStr s → blank s) →
   field_step st (key, v) = Ok st ∧ verdict_of (key, v) = Nothing).
Proof.
  split_and!.
  - eexists _, _. apply process_record_finished.
  - rewrite field_step_verdict. eauto.
  - intros Hv. assert (skipped v = true) as E.
    { destruct v as [| | | |s]; try done. simpl.
      apply bool_decide_eq_true_2, strip_nil. by apply Hv. }
    unfold field_step, verdict_of. simpl. rewrite E.
    split; [done|]. destruct v as [| | | |s]; try done.
    simpl in E. by rewrite E.
Qed.

Lemma process_record_never_raises_witness :
  (∃ out is_pii, process_record blank_name_record = Ok (out, is_pii)) ∧
  (∃ st', field_step (Locals blank_name_record false ∅ [])
                     ("name", VStr (py "   ")) = Ok st') ∧
  field_step (Locals blank_name_record false ∅ []) ("name", VStr (py "   "))
    = Ok (Locals blank_name_record false ∅ []) ∧
  verdict_of ("name", VStr (py "   ")) = Nothing.
Proof.
  destruct (process_record_never_raises blank_name_record
              (Locals blank_name_record false ∅ [])
              "name" (VStr (py "   "))) as (H1 & H2 & H3).
  split_and!; [exact H1|exact H2|apply H3|apply H3];
    intros s [= <-]; repeat constructor.
Defined.

Lemma standalone_found_scanned data :
  standalone_found data = is_pii_found (scanned data).
Proof. unfold standalone_found. by rewrite scan_scanned. Qed.

Lemma quiet_scan data k :
  standalone_found data = false → redacted_data (scanned data) !! k = data !! k.
Proof.
  rewrite standalone_found_scanned. intros Hq. rewrite scanned_redacted.
  destruct (data !! k) as [v|] eqn:E; [|done].
  destruct (verdict_of (k, v)) eqn:V; try done.
  assert (is_pii_found (scanned data) = true); [|congruence].
  apply scanned_pii. eauto.
Qed.

Lemma digits_not_blank r v n :
  need is_decimal r = S n → search r v = true → strip v ≠ [].
Proof.
  intros Hn E%(search_need is_decimal). rewrite Hn in E.
  apply (tally_not_blank is_decimal); [apply decimal_not_space|lia].
Qed.

Lemma standalone_shape_not_blank r s :
  r ∈ [phone_rule; aadhar_rule; passport_rule; upi_rule] →
  shape r s = true → strip s ≠ [].
Proof.
  intros Hr. set_unfold in Hr. destruct_or?; subst; try done; simpl.
  - apply phone_not_blank.
  - apply (digits_not_blank _ _ _ need_aadhar).
  - apply (digits_not_blank _ _ _ need_passport).
  - unfold upi_handle. intros [U _]%andb_true_iff. by apply upi_not_blank.
Qed.

(** Whether a standalone rule matches some field, in words. *)
Lemma standalone_found_spec data :
  standalone_found data = true ↔
  ∃ r k s, r ∈ [phone_rule; aadhar_rule; passport_rule; upi_rule] ∧
           k ∈ fields r ∧ data !! k = Some (VStr s) ∧ shape r s = true.
Proof.
  rewrite standalone_found_scanned, scanned_pii. split.
  - intros (k & v & x & Hk & Hv). unfold verdict_of in Hv. simpl in Hv.
    destruct v as [| | | |s]; try done.
    destruct (bool_decide (strip s = [])); [done|].
    unfold classify in Hv.
    destruct (first_rule k s) as [r|] eqn:F; [|done].
    apply first_rule_Some in F as (Hr & Hf & Hs).
    exists r, k, s. split_and!; try done.
    unfold rule_table in Hr. set_unfold in Hr. set_unfold.
    destruct_or?; subst; try done; auto.
  - intros (r & k & s & Hr & Hf & Hk & Hs).
    pose proof (standalone_shape_not_blank r s Hr Hs) as Hnb.
    assert (r ∈ rule_table) as Ht.
    { unfold rule_table. set_unfold in Hr. set_unfold. tauto. }
    destruct (first_rule k s) as [r'|] eqn:F.
    + pose proof F as (Hr' & Hf' & _)%first_rule_Some.
      assert (r' = r) as -> by eauto using rule_fields_disjoint.
      destruct (classify_ok k s Hnb) as (vd & C).
      exists k, (VStr s). unfold verdict_of. simpl.
      rewrite bool_decide_eq_false_2, C by done.
      unfold classify in C. rewrite F in C.
      set_unfold in Hr. destruct_or?; subst; try done; simpl in C;
        try (destruct (redact_passport s); simpl in C; [|done]);
        injection C as <-; eauto.
    + unfold first_rule in F. eapply find_none in F.
      * unfold applies in F. erewrite Hs, andb_true_r in F.
        unfold key_in in F. by apply bool_decide_eq_false in F.
      * by apply list_elem_of_In.
Qed.

(** C2.  A record in which exactly one combinatorial category is found
    and no standalone rule matches is returned unchanged, with
    [is_pii = false]. *)
Theorem single_category_no_escalation (data : gmap string value) :
  size (categories data) = 1 → standalone_found data = false →
  process_record data = Ok (data, false).
Proof.
  intros Hsz Hq. rewrite process_record_finished. do 2 f_equal.
  - apply map_eq. intros k. rewrite finished_untouched by lia.
    by apply quiet_scan.
  - rewrite finished_pii, <- standalone_found_scanned, Hq.
    by rewrite bool_decide_eq_false_2 by lia.
Qed.

Lemma single_category_no_escalation_witness :
  size (categories device_only_record) = 1 ∧
  standalone_found device_only_record = false ∧
  process_record device_only_record = Ok (device_only_record, false).
Proof.
  assert (size (categories device_only_record) = 1) as H1
    by (vm_compute; reflexivity).
  assert (standalone_found device_only_record = false) as H2
    by (vm_compute; reflexivity).
  split_and!; [exact H1|exact H2|].
  exact (single_category_no_escalation device_only_record H1 H2).
Defined.

(** ** Escalation *)

Lemma verdict_candidate_inv k v c :
  verdict_of (k, v) = Candidate c →
  ∃ s, v = VStr s ∧ strip s ≠ [] ∧ classify k s = Ok (Candidate c).
Proof.
  unfold verdict_of. simpl. destruct v as [| | | |s]; try done.
  case_bool_decide as Hs; [done|].
  destruct (classify k s) as [vd|] eqn:C; [|done].
  intros ->. eauto.
Qed.

(** A category is found only through its own field. *)
Lemma category_field data c :
  c ∈ categories data →
  ∃ k s, data !! k = Some (VStr s) ∧ strip s ≠ [] ∧
         classify k s = Ok (Candidate c) ∧
         ((k = "name" ∧ c = "name") ∨ (k = "email" ∧ c = "email") ∨
          (k = "address" ∧ c = "address") ∨
          (k ∈ ["ip_address"; "device_id"] ∧ c = "device_context")).
Proof.
  rewrite categories_scanned, scanned_categories.
  intros (k & v & Hk & (s & -> & Hs & C)%verdict_candidate_inv).
  exists k, s. split_and!; try done. by apply classify_inv in C.
Qed.

Lemma category_own_field data c :
  c ∈ ["name"; "email"; "address"] → c ∈ categories data →
  ∃ s, data !! c = Some (VStr s) ∧ classify c s = Ok (Candidate c).
Proof.
  intros Hc (k & s & Hk & _ & C & H)%category_field.
  exists s. set_unfold in Hc. set_unfold in H.
  destruct_or?; destruct_and?; subst; done.
Qed.

Lemma candidate_verdict data k s c :
  data !! k = Some (VStr s) → strip s ≠ [] → classify k s = Ok (Candidate c) →
  c ∈ categories data.
Proof.
  intros Hk Hs C. rewrite categories_scanned. apply scanned_categories.
  exists k, (VStr s). split; [done|]. unfold verdict_of. simpl.
  by rewrite bool_decide_eq_false_2, C.
Qed.

(** The categories found by step 1, in words. *)
Lemma categories_spec data c :
  c ∈ categories data ↔
  (c = "name" ∧ ∃ s, data !! "name" = Some (VStr s) ∧
                     1 < length (split_ws (strip s))) ∨
  (c = "email" ∧ ∃ s, data !! "email" = Some (VStr s) ∧
                      search EMAIL_REGEX s = true) ∨
  (c = "address" ∧ ∃ s, data !! "address" = Some (VStr s) ∧
                        10 < length (strip s)) ∨
  (c = "device_context" ∧
   ∃ k s, k ∈ ["ip_address"; "device_id"] ∧ data !! k = Some (VStr s) ∧
          strip s ≠ []).
Proof.
  split.
  - intros (k & s & Hk & Hs & C & R)%category_field.
    destruct R as [[-> ->]|[[-> ->]|[[-> ->]|[Hin ->]]]].
    + left. split; [done|]. exists s. split; [done|].
      rewrite classify_name in C. unfold several_tokens in C.
      by case_bool_decide.
    + right. left. split; [done|]. exists s. split; [done|].
      rewrite classify_email in C. by destruct (search EMAIL_REGEX s).
    + do 2 right. left. split; [done|]. exists s. split; [done|].
      rewrite classify_address in C. unfold long_text in C.
      by case_bool_decide.
    + do 3 right. split; [done|]. by exists k, s.
  - intros [[-> (s & Hk & H)]|[[-> (s & Hk & H)]|[[-> (s & Hk & H)]|
            [-> (k & s & Hin & Hk & H)]]]].
    + apply (candidate_verdict data "name" s); [done| |].
      * intros E. rewrite E in H. simpl in H. lia.
      * rewrite classify_name. unfold several_tokens.
        by rewrite bool_decide_eq_true_2.
    + apply (candidate_verdict data "email" s); [done| |].
      * apply (search_need (is_char "@")) in H. rewrite need_email in H.
        apply (tally_not_blank (is_char "@")); [apply at_not_space|lia].
      * by rewrite classify_email, H.
    + apply (candidate_verdict data "address" s); [done| |].
      * intros E. rewrite E in H. simpl in H. lia.
      * rewrite classify_address. unfold long_text.
        by rewrite bool_decide_eq_true_2.
    + apply (candidate_verdict data k s); [done..|]. by apply classify_device.
Qed.

(** What step 3 makes of a device field when [device_context] escalates. *)
Lemma device_field_escalated data key :
  2 ≤ size (categories data) → "device_context" ∈ categories data →
  key ∈ ["ip_address"; "device_id"] →
  redacted_data (finished data) !! key =
    match data !! key with
    | Some (VStr _) => Some (VStr IDENTIFIER_SENTINEL)
    | other => other
    end.
Proof.
  intros Hsz Hc Hk. rewrite finished_escalated; [|done|].
  - unfold redacted_value. destruct (data !! key) as [[| | | |s]|]; try done.
    set_unfold in Hk. by destruct_or?; subst.
  - apply elem_of_fields_of_categories. auto.
Qed.

(** C1, amended.  When two or more categories are found,
    [process_record] returns [is_pii = true]; the [name] field is
    replaced by its masked form, the [email] field by its masked form,
    the [address] field by ["[REDACTED_ADDRESS]"], each when its category
    is present; and when [device_context] is present each of
    [ip_address] and [device_id] that holds a string is replaced by
    ["[REDACTED_IDENTIFIER]"], while one that is absent or holds a
    non-string value is left as it is. *)
Theorem escalation_redacts_categories (data : gmap string value) :
  2 ≤ size (categories data) →
  ∃ out, process_record data = Ok (out, true) ∧
    ("name" ∈ categories data →
       ∃ s r, data !! "name" = Some (VStr s) ∧ redact_name s = Ok r ∧
              out !! "name" = Some (VStr r)) ∧
    ("email" ∈ categories data →
       ∃ s r, data !! "email" = Some (VStr s) ∧ redact_email s = Ok r ∧
              out !! "email" = Some (VStr r)) ∧
    ("address" ∈ categories data →
       ∃ s, data !! "address" = Some (VStr s) ∧
            out !! "address" = Some (VStr ADDRESS_SENTINEL)) ∧
    ("device_context" ∈ categories data →
       ∀ key, key ∈ ["ip_address"; "device_id"] →
         out !! key = match data !! key with
                      | Some (VStr _) => Some (VStr IDENTIFIER_SENTINEL)
                      | other => other
                      end).
Proof.
  intros Hsz. exists (redacted_data (finished data)). split_and!.
  - rewrite process_record_finished, finished_pii.
    by rewrite bool_decide_eq_true_2.
  - intros Hc. destruct (category_own_field data "name") as (s & Hs & _);
      [set_solver|done|].
    destruct (transform_ok "name" s) as (r & Hr). exists s, r.
    split_and!; [done..|]. rewrite finished_escalated; [|done|].
    + rewrite Hs. unfold redacted_value. by rewrite Hr.
    + apply elem_of_fields_of_categories. auto.
  - intros Hc. destruct (category_own_field data "email") as (s & Hs & _);
      [set_solver|done|].
    destruct (transform_ok "email" s) as (r & Hr). exists s, r.
    split_and!; [done..|]. rewrite finished_escalated; [|done|].
    + rewrite Hs. unfold redacted_value. by rewrite Hr.
    + apply elem_of_fields_of_categories. auto.
  - intros Hc. destruct (category_own_field data "address") as (s & Hs & _);
      [set_solver|done|].
    exists s. split; [done|]. rewrite finished_escalated; [|done|].
    + by rewrite Hs.
    + apply elem_of_fields_of_categories. auto.
  - intros Hc key Hk. by apply device_field_escalated.
Qed.

Lemma escalation_redacts_categories_witness :
  2 ≤ size (categories mixed_device_record) ∧
  ∃ out, process_record mixed_device_record = Ok (out, true) ∧
         out !! "ip_address" = Some (VStr IDENTIFIER_SENTINEL) ∧
         out !! "device_id" = Some (VInt 42).
Proof.
  assert (2 ≤ size (categories mixed_device_record)) as H
    by (vm_compute; repeat constructor).
  split; [exact H|].
  destruct (escalation_redacts_categories mixed_device_record H)
    as (out & Hout & _ & _ & _ & Hdev).
  exists out. split; [exact Hout|].
  assert ("device_context" ∈ categories mixed_device_record) as Hd
    by (apply (bool_decide_unpack _); vm_compute; exact I).
  split.
  - apply (Hdev Hd "ip_address"). left.
  - apply (Hdev Hd "device_id"). right. left.
Defined.

(** C1 as stated fails: [device_id] is present in a record where
    [name] and [device_context] are both found, yet its value, the
    number 42, is returned as it was instead of the sentinel. *)
Lemma escalation_keeps_non_string_device :
  2 ≤ size (categories mixed_device_record) ∧
  "device_context" ∈ categories mixed_device_record ∧
  mixed_device_record !! "device_id" = Some (VInt 42) ∧
  ∃ out, process_record mixed_device_record = Ok (out, true) ∧
         out !! "device_id" = Some (VInt 42) ∧
         out !! "device_id" ≠ Some (VStr IDENTIFIER_SENTINEL).
Proof.
  split_and!.
  - vm_compute. repeat constructor.
  - apply (bool_decide_unpack _). vm_compute. exact I.
  - by vm_compute.
  - eexists. split_and!; [by vm_compute|by vm_compute|].
    vm_compute. discriminate.
Qed.

(** C10.  When escalation fires with [device_context] among the
    categories, a field [ip_address] or [device_id] ends as
    ["[REDACTED_IDENTIFIER]"] exactly when it is present with a string
    value: a blank string is replaced although step 1 skipped it, and a
    non-string value is left unchanged. *)
Theorem device_pair_redaction (data : gmap string value) (key : string) :
  2 ≤ size (categories data) → "device_context" ∈ categories data →
  key ∈ ["ip_address"; "device_id"] →
  ∃ out, process_record data = Ok (out, true) ∧
    match data !! key with
    | Some (VStr s) =>
        out !! key = Some (VStr IDENTIFIER_SENTINEL) ∧
        (blank s → verdict_of (key, VStr s) = Nothing)
    | Some other => out !! key = Some other ∧ other ≠ VStr IDENTIFIER_SENTINEL
    | None => out !! key = None
    end.
Proof.
  intros Hsz Hc Hk. exists (redacted_data (finished data)). split.
  - rewrite process_record_finished, finished_pii.
    by rewrite bool_decide_eq_true_2.
  - rewrite device_field_escalated by done.
    destruct (data !! key) as [[| | | |s]|]; try done.
    split; [done|]. intros Hb%strip_nil. unfold verdict_of. simpl.
    by rewrite bool_decide_eq_true_2.
Qed.

Lemma device_pair_redaction_witness :
  2 ≤ size (categories blank_device_record) ∧
  "device_context" ∈ categories blank_device_record ∧
  "ip_address" ∈ ["ip_address"; "device_id"] ∧
  ∃ out, process_record blank_device_record = Ok (out, true) ∧
         out !! "ip_address" = Some (VStr IDENTIFIER_SENTINEL) ∧
         verdict_of ("ip_address", VStr (py "   ")) = Nothing.
Proof.
  assert (2 ≤ size (categories blank_device_record)) as H1
    by (vm_compute; repeat constructor).
  assert ("device_context" ∈ categories blank_device_record) as H2
    by (apply (bool_decide_unpack _); vm_compute; exact I).
  assert ("ip_address" ∈ ["ip_address"; "device_id"]) as H3 by left.
  split_and!; [exact H1|exact H2|exact H3|].
  destruct (device_pair_redaction blank_device_record "ip_address" H1 H2 H3)
    as (out & Hout & Hk).
  exists out. split; [exact Hout|].
  change (blank_device_record !! "ip_address") with (Some (VStr (py "   "))) in Hk.
  destruct Hk as [Hv Hb]. split; [exact Hv|].
  apply Hb. repeat constructor.
Defined.

(** ** Standalone fields *)

Lemma standalone_field_kept data key :
  key ∈ standalone_keys →
  redacted_data (finished data) !! key = redacted_data (scanned data) !! key.
Proof.
  intros Hk. apply finished_untouched. intros [_ H%escalated_fields].
  by apply standalone_not_escalated in Hk.
Qed.

Lemma standalone_verdict_result data key v x :
  key ∈ standalone_keys → data !! key = Some v →
  verdict_of (key, v) = Standalone x →
  process_record data = Ok (redacted_data (finished data), true) ∧
  redacted_data (finished data) !! key = Some (VStr x).
Proof.
  intros Hk Hd Hv. split.
  - rewrite process_record_finished, finished_pii.
    assert (is_pii_found (scanned data) = true) as ->; [|by rewrite orb_true_r].
    apply scanned_pii. eauto.
  - rewrite standalone_field_kept by done. rewrite scanned_redacted, Hd.
    by rewrite Hv.
Qed.

Lemma other_verdict_result data key v :
  key ∈ standalone_keys → data !! key = Some v →
  (∀ x, verdict_of (key, v) ≠ Standalone x) →
  redacted_data (finished data) !! key = Some v.
Proof.
  intros Hk Hd Hv. rewrite standalone_field_kept by done.
  rewrite scanned_redacted, Hd. destruct (verdict_of (key, v)) eqn:V; try done.
  by destruct (Hv redacted).
Qed.

Lemma tally_full P s : length s ≤ tally P s → Forall (λ c, P c = true) s.
Proof.
  induction s as [|x t IH]; simpl; [constructor|].
  pose proof (tally_le_length P t). destruct (P x) eqn:E; [|lia].
  intros Hl. constructor; [done|]. apply IH. lia.
Qed.

(** C5, amended.  When the string of a [phone] or [contact] field
    contains a run of ten digits as a whole token, [process_record]
    returns [is_pii = true] and replaces the field by the first two
    characters of the whole value, six ['X'], and the last two
    characters of the whole value.  When the value is the 10-digit token
    alone, these are its first two and last two digits and exactly the
    six digits in between are replaced. *)
Theorem phone_field_redaction (data : gmap string value) (key : string) (v : pystr) :
  key ∈ ["phone"; "contact"] → data !! key = Some (VStr v) →
  ten_digit_token v →
  ∃ out, process_record data = Ok (out, true) ∧
    out !! key = Some (VStr (slice_to 2 v ++ XS 6 ++ slice_last 2 v)) ∧
    (length v = 10 →
       Forall (λ c, is_decimal c = true) v ∧
       out !! key = Some (VStr (take 2 v ++ XS 6 ++ drop 8 v))).
Proof.
  intros Hk Hd Hm%phone_search_spec.
  assert (verdict_of (key, VStr v) = Standalone (redact_phone v)) as Hv.
  { unfold verdict_of. simpl.
    rewrite bool_decide_eq_false_2 by by apply phone_not_blank.
    by rewrite classify_phone, Hm by done. }
  assert (key ∈ standalone_keys) as Hs.
  { unfold standalone_keys. set_unfold. tauto. }
  destruct (standalone_verdict_result data key _ _ Hs Hd Hv) as [Hp Ho].
  exists (redacted_data (finished data)). split_and!; [done..|].
  intros Hl. split.
  - apply tally_full. apply (search_need is_decimal) in Hm.
    rewrite need_phone in Hm. lia.
  - rewrite Ho. unfold redact_phone, slice_to, slice_last. by rewrite Hl.
Qed.

Lemma phone_field_redaction_witness :
  "phone" ∈ ["phone"; "contact"] ∧
  phone_record !! "phone" = Some (VStr (py "9876543210")) ∧
  ten_digit_token (py "9876543210") ∧
  ∃ out, process_record phone_record = Ok (out, true) ∧
         out !! "phone" = Some (VStr (py "98XXXXXX10")).
Proof.
  assert ("phone" ∈ ["phone"; "contact"]) as H1 by left.
  assert (phone_record !! "phone" = Some (VStr (py "9876543210"))) as H2
    by (vm_compute; reflexivity).
  assert (ten_digit_token (py "9876543210")) as H3.
  { exists [], (py "9876543210"), []. split_and!; try reflexivity.
    repeat constructor. }
  split_and!; [exact H1|exact H2|exact H3|].
  destruct (phone_field_redaction phone_record "phone" _ H1 H2 H3)
    as (out & Ho & Hk & _).
  exists out. split; [exact Ho|exact Hk].
Defined.

(** C5 as stated fails: the value below contains the 10-digit token
    [9876543210], yet the output keeps the first two characters of the
    value, ["Ph"], not the first two digits of the token, and the 14
    characters of the value shrink to 10. *)
Lemma phone_redaction_keeps_raw_prefix :
  labelled_phone = py "Ph: " ++ py "9876543210" ∧
  ten_digit_token labelled_phone ∧
  process_record (record [("phone", labelled_phone)])
    = Ok (record [("phone", py "PhXXXXXX10")], true) ∧
  py "PhXXXXXX10" ≠ py "98" ++ XS 6 ++ py "10" ∧
  length labelled_phone = 14.
Proof.
  split_and!; [done| |by vm_compute| |done].
  - exists (py "Ph: "), (py "9876543210"), []. split_and!; try reflexivity.
    repeat constructor.
  - vm_compute. discriminate.
Qed.

(** ** The UPI rule *)

Lemma split_on_head sep s :
  ∃ a, (sep ∉ a) ∧
    ((s = a ∧ split_on sep s = [a]) ∨
     (∃ b, s = a ++ sep :: b ∧ split_on sep s = a :: split_on sep b)).
Proof.
  induction s as [|c t (a & Ha & IH)]; simpl.
  { exists []. split; [apply not_elem_of_nil|by left]. }
  unfold is_char. case_bool_decide as Hc.
  - subst. exists []. split; [apply not_elem_of_nil|]. right. by exists t.
  - exists (c :: a). split; [by apply not_elem_of_cons|].
    destruct IH as [[-> ->]|(b & -> & ->)]; [by left|]. right. by exists b.
Qed.

Lemma split_on_app sep a b :
  sep ∉ a → split_on sep (a ++ sep :: b) = a :: split_on sep b.
Proof.
  induction a as [|c a IH]; simpl; intros Hn; unfold is_char.
  - by rewrite bool_decide_eq_true_2.
  - apply not_elem_of_cons in Hn as [Hc Hn].
    rewrite bool_decide_eq_false_2 by done. by rewrite IH.
Qed.

Lemma split_on_none sep a : sep ∉ a → split_on sep a = [a].
Proof.
  induction a as [|c a IH]; simpl; intros Hn; [done|]. unfold is_char.
  apply not_elem_of_cons in Hn as [Hc Hn].
  rewrite bool_decide_eq_false_2 by done. by rewrite IH.
Qed.

Lemma split_on_second s d :
  split_on "@" s !! 1 = Some d ↔ domain_segment s d.
Proof.
  split.
  - destruct (split_on_head "@" s) as (a & Ha & [[-> ->]|(b & -> & ->)]);
      [done|]. simpl.
    destruct (split_on_head "@" b) as (d' & Hd & [[-> ->]|(r & -> & ->)]);
      simpl; intros [= <-]; exists a.
    + exists []. rewrite app_nil_r. auto.
    + exists ("@"%char :: r). split_and!; eauto.
  - intros (a & rest & -> & Ha & Hd & [->|(r & ->)]).
    + rewrite app_nil_r, split_on_app by done. simpl.
      by rewrite split_on_none.
    + rewrite split_on_app by done. simpl. by rewrite split_on_app.
Qed.

Lemma split_on_single sep d : length (split_on sep d) = 1 ↔ sep ∉ d.
Proof.
  rewrite split_on_length. split.
  - intros H Hin. assert (tally (is_char sep) d = 0) as H0 by lia.
    clear H. induction d as [|c t IH]; [by apply elem_of_nil in Hin|].
    simpl in H0. unfold is_char in H0 at 1.
    apply elem_of_cons in Hin as [->|Hin].
    + by rewrite bool_decide_eq_true_2 in H0.
    + apply IH; [done|]. destruct (bool_decide (sep = c)); simpl in H0; lia.
  - intros Hn. by rewrite <- split_on_length, split_on_none.
Qed.

(** [upi_handle] in words. *)
Lemma upi_handle_spec s :
  upi_handle s = true ↔
  local_at_domain s ∧ ∃ d, domain_segment s d ∧ ("."%char) ∉ d.
Proof.
  unfold upi_handle. rewrite andb_true_iff, upi_search_spec. split.
  - intros [Hm Hd]. split; [done|].
    destruct (split_on "@" s !! 1) as [d|] eqn:E; [|done].
    exists d. split; [by apply split_on_second|].
    apply bool_decide_eq_true in Hd. by apply split_on_single.
  - intros [Hm (d & Hs%split_on_second & Hd)]. split; [done|].
    rewrite Hs. by apply bool_decide_eq_true_2, split_on_single.
Qed.

Lemma verdict_of_upi s :
  verdict_of ("upi_id", VStr s) =
    if upi_handle s then Standalone (py "[REDACTED_UPI]") else Nothing.
Proof.
  unfold verdict_of. simpl. case_bool_decide as Hb.
  - destruct (upi_handle s) eqn:U; [|done].
    unfold upi_handle in U. apply andb_true_iff in U as [U%upi_not_blank _].
    done.
  - rewrite classify_upi. by destruct (upi_handle s).
Qed.

(** C6, amended.  A [upi_id] field is treated as standalone PII exactly
    when its value is a string of the shape [local@domain] in which the
    text between the first ['@'] and the next ['@'], or the end of the
    value, has no ['.']: then the whole value becomes
    ["[REDACTED_UPI]"] and [is_pii = true]; in every other case the
    field keeps its value. *)
Theorem upi_field_redaction (data : gmap string value) (v : value) :
  data !! "upi_id" = Some v →
  ∃ out is_pii, process_record data = Ok (out, is_pii) ∧
    ((∃ s d, v = VStr s ∧ local_at_domain s ∧
             domain_segment s d ∧ ("."%char) ∉ d) →
       out !! "upi_id" = Some (VStr (py "[REDACTED_UPI]")) ∧ is_pii = true) ∧
    (¬ (∃ s d, v = VStr s ∧ local_at_domain s ∧
               domain_segment s d ∧ ("."%char) ∉ d) →
       out !! "upi_id" = Some v).
Proof.
  intros Hd. assert ("upi_id" ∈ standalone_keys) as Hs.
  { unfold standalone_keys. set_unfold. tauto. }
  eexists _, _. split; [apply process_record_finished|]. split.
  - intros (s & d & -> & Hm & Hseg & Hdot).
    assert (upi_handle s = true) as U by (apply upi_handle_spec; eauto).
    destruct (standalone_verdict_result data "upi_id" (VStr s)
                (py "[REDACTED_UPI]") Hs Hd) as [Hp Ho].
    { by rewrite verdict_of_upi, U. }
    rewrite process_record_finished in Hp. by injection Hp as ->.
  - intros Hn. apply other_verdict_result; [done..|].
    intros x Hx. apply Hn. destruct v as [| | | |s]; try done.
    rewrite verdict_of_upi in Hx. destruct (upi_handle s) eqn:U; [|done].
    apply upi_handle_spec in U as (Hm & d & ? & ?). eauto 10.
Qed.

Lemma upi_field_redaction_witness :
  upi_record !! "upi_id" = Some (VStr (py "user@upi")) ∧
  ∃ out is_pii, process_record upi_record = Ok (out, is_pii) ∧
    out !! "upi_id" = Some (VStr (py "[REDACTED_UPI]")) ∧ is_pii = true.
Proof.
  assert (upi_record !! "upi_id" = Some (VStr (py "user@upi"))) as H
    by (vm_compute; reflexivity).
  split; [exact H|].
  destruct (upi_field_redaction upi_record _ H) as (out & is_pii & Ho & Hyes & _).
  exists out, is_pii. split; [exact Ho|]. apply Hyes.
  exists (py "user@upi"), (py "upi"). split_and!.
  - reflexivity.
  - exists (py "use"), "r"%char, "u"%char, (py "pi"). by split_and!.
  - exists (py "user"), []. split_and!; [reflexivity|..|by left];
      intros H'; set_unfold in H'; by destruct_or?.
  - intros H'; set_unfold in H'; by destruct_or?.
Defined.

(** C6 as stated fails: ["a@b@c.d"] has the shape [local@domain] and
    the text after the ['@'], whether the first or the last one is
    meant, contains a ['.'], yet the field is redacted as a UPI
    handle. *)
Lemma upi_second_at_ignored :
  local_at_domain two_at_handle ∧
  two_at_handle = py "a" ++ "@"%char :: py "b@c.d" ∧ "."%char ∈ py "b@c.d" ∧
  two_at_handle = py "a@b" ++ "@"%char :: py "c.d" ∧ "."%char ∈ py "c.d" ∧
  process_record (record [("upi_id", two_at_handle)])
    = Ok (record [("upi_id", py "[REDACTED_UPI]")], true).
Proof.
  split_and!; [|done| |done| |by vm_compute]; [|set_unfold; tauto..].
  exists [], "a"%char, "b"%char, (py "@c.d"). by split_and!.
Qed.

(** ** Redacting what is already redacted *)

Lemma upi_sentinel_not_handle : upi_handle (py "[REDACTED_UPI]") = false.
Proof. vm_compute. reflexivity. Qed.

(** Each rule of the table: a standalone redaction does not satisfy its
    rule again, a combinatorial transform fixes its own output. *)
Lemma rule_output_stable (rl : rule) :
  rl ∈ rule_table →
  match action_of rl with
  | Redact f => ∀ v r, f v = Ok r → shape rl r = false
  | Mark _ =>
      ∀ key v r, key ∈ fields rl →
        transform key v = Ok r → transform key r = Ok r
  end.
Proof.
  unfold rule_table. intros H. set_unfold in H.
  destruct_or?; subst; try done; simpl.
  - intros v r [= <-]. apply phone_redacted_clean.
  - intros v r [= <-]. apply aadhar_redacted_clean.
  - apply passport_redacted_clean.
  - intros _ r [= <-]. apply upi_sentinel_not_handle.
  - intros key v r _. apply transform_idemp.
  - intros key v r _. apply transform_idemp.
  - intros key v r _. apply transform_idemp.
  - intros key v r _. apply transform_idemp.
Qed.

Lemma standalone_output_quiet k s x y :
  classify k s = Ok (Standalone x) → classify k x ≠ Ok (Standalone y).
Proof.
  unfold classify.
  destruct (first_rule k s) as [r|] eqn:F; [|done].
  apply first_rule_Some in F as (Hr & Hk & _).
  pose proof (rule_output_stable r Hr) as Hst.
  destruct (action_of r) as [f|c] eqn:A; [|done].
  destruct (f s) as [x'|] eqn:E; simpl; [|done]. intros [= ->].
  destruct (first_rule k x) as [r'|] eqn:F'; [|done].
  apply first_rule_Some in F' as (Hr' & Hk' & Hs').
  assert (r' = r) as -> by eauto using rule_fields_disjoint.
  rewrite (Hst s x E) in Hs'. done.
Qed.

Lemma verdict_standalone_quiet k v x y :
  verdict_of (k, v) = Standalone x → verdict_of (k, VStr x) ≠ Standalone y.
Proof.
  unfold verdict_of. simpl. destruct v as [| | | |s]; try done.
  destruct (bool_decide (strip s = [])); [done|].
  destruct (classify k s) as [vd|] eqn:C; [|done]. intros ->.
  destruct (bool_decide (strip x = [])); [done|].
  destruct (classify k x) as [vd|] eqn:C'; [|done]. intros ->.
  by apply (standalone_output_quiet k s x y C).
Qed.

Lemma redacted_value_idemp k o :
  redacted_value k (redacted_value k o) = redacted_value k o.
Proof.
  unfold redacted_value. destruct o as [[| | | |s]|]; try done.
  destruct (transform k s) as [r|] eqn:E; [|by rewrite E].
  by rewrite (transform_idemp _ _ _ E).
Qed.

Lemma fields_of_categories_mono cats cats' :
  cats' ⊆ cats → fields_of_categories cats' ⊆ fields_of_categories cats.
Proof.
  intros Hsub k. rewrite !elem_of_fields_of_categories.
  intros H. destruct_or?; destruct_and?; auto 10.
Qed.

(** A second evaluation finds no category that the first did not. *)
Lemma categories_redacted_subset data :
  categories (redacted_data (finished data)) ⊆ categories data.
Proof.
  intros c (k & s & Hk & Hs & C & R)%category_field.
  destruct (decide (2 ≤ size (categories data) ∧
                    k ∈ fields_of_categories (categories data))) as [[_ H]|Hn].
  - apply elem_of_fields_of_categories in H.
    set_unfold in R. set_unfold in H.
    destruct_or?; destruct_and?; subst; try done; destruct_or?; done.
  - rewrite finished_untouched, scanned_escalated in Hk; [|..|done].
    + rewrite categories_scanned. apply scanned_categories.
      exists k, (VStr s). split; [done|]. unfold verdict_of. simpl.
      by rewrite bool_decide_eq_false_2, C.
    + unfold escalated_keys. set_unfold in R. set_unfold.
      destruct_or?; destruct_and?; subst; auto; destruct_or?; auto.
Qed.

(** Evaluating the redacted record changes no value. *)
Lemma finished_fixpoint data :
  redacted_data (finished (redacted_data (finished data)))
  = redacted_data (finished data).
Proof.
  set (out := redacted_data (finished data)).
  pose proof (categories_redacted_subset data) as Hsub. fold out in Hsub.
  apply map_eq. intros k.
  destruct (decide (2 ≤ size (categories out) ∧
                    k ∈ fields_of_categories (categories out))) as [[H1 H2]|Hn].
  - rewrite finished_escalated by done. unfold out.
    rewrite finished_escalated.
    + apply redacted_value_idemp.
    + apply subseteq_size in Hsub. lia.
    + by eapply fields_of_categories_mono.
  - rewrite finished_untouched by done. rewrite scanned_redacted.
    destruct (out !! k) as [v|] eqn:E; [|done].
    destruct (verdict_of (k, v)) as [y| |] eqn:V; try done. exfalso.
    pose proof (verdict_of_standalone _ _ _ V) as Hk.
    unfold out in E. rewrite standalone_field_kept, scanned_redacted in E by done.
    destruct (data !! k) as [v0|] eqn:E0; [|done].
    destruct (verdict_of (k, v0)) as [x| |] eqn:V0; injection E as <-;
      [|congruence..].
    by apply (verdict_standalone_quiet k v0 x y V0).
Qed.

(** C4, amended.  For each standalone rule of the table (phone, aadhar,
    passport, UPI) the output of the rule's redaction never satisfies
    the rule's own condition again.  For each combinatorial rule (name,
    email, address, device context) the transform of step 3 maps its own
    output to itself.  Either way redacting what is redacted changes
    nothing: [process_record] returns its own output record unchanged. *)
Theorem redaction_is_stable (rl : rule) (data : gmap string value) :
  rl ∈ rule_table →
  match action_of rl with
  | Redact f => ∀ v r, f v = Ok r → shape rl r = false
  | Mark _ =>
      ∀ key v r, key ∈ fields rl →
        transform key v = Ok r → transform key r = Ok r
  end ∧
  ∃ out is_pii is_pii',
    process_record data = Ok (out, is_pii) ∧
    process_record out = Ok (out, is_pii').
Proof.
  intros H. split; [by apply rule_output_stable|].
  eexists _, _, _. split; [apply process_record_finished|].
  rewrite process_record_finished. by rewrite finished_fixpoint.
Qed.

Lemma redaction_is_stable_witness :
  passport_rule ∈ rule_table ∧
  redact_passport (py "A1234567") = Ok (py "AXXXXXX7") ∧
  search PASSPORT_REGEX (py "AXXXXXX7") = false.
Proof.
  assert (passport_rule ∈ rule_table) as H.
  { unfold rule_table. do 2 right. left. }
  assert (redact_passport (py "A1234567") = Ok (py "AXXXXXX7")) as Hr
    by (vm_compute; reflexivity).
  split_and!; [exact H|exact Hr|].
  exact (proj1 (redaction_is_stable passport_rule ∅ H) _ _ Hr).
Defined.

(** C4 as stated fails for the combinatorial rules: the redacted name,
    email and address satisfy the condition of their own rule again, and
    the device rule has no condition on the value at all. *)
Lemma combinatorial_output_matches_again :
  redact_name (py "John Doe") = Ok (py "JXXX DXX") ∧
  shape name_rule (py "JXXX DXX") = true ∧
  redact_email (py "john@example.com") = Ok (py "jXXXn@example.com") ∧
  shape email_rule (py "jXXXn@example.com") = true ∧
  shape address_rule ADDRESS_SENTINEL = true ∧
  shape device_rule IDENTIFIER_SENTINEL = true.
Proof. split_and!; by vm_compute. Qed.

(** ** One rule and one transform per field *)








(** ** The evaluator on objects *)

Lemma locals_eta st :
  Locals (redacted_data st) (is_pii_found st) (combinatorial_keys st) (assigned st)
  = st.
Proof. by destruct st. Qed.

Lemma view_store fr st : Heap.view (Heap.store fr st) = Ok st.
Proof.
  unfold Heap.view, Heap.store, Heap.load. simpl.
  rewrite lookup_insert_eq. simpl. by rewrite locals_eta.
Qed.

Lemma store_store fr st1 st2 :
  Heap.store (Heap.store fr st1) st2 = Heap.store fr st2.
Proof. unfold Heap.store. simpl. by rewrite insert_insert_eq. Qed.

Lemma store_view fr st : Heap.view fr = Ok st → Heap.store fr st = fr.
Proof.
  unfold Heap.view, Heap.store, Heap.load. destruct fr as [h r p c a]. simpl.
  destruct (h !! r) as [d|] eqn:E; [|done]. simpl. intros [= <-]. simpl.
  by rewrite insert_id.
Qed.

(** A loop run in place is the loop run on the contents, written back. *)
Lemma for_each_in_place {A} (body : locals → A → result locals) l fr st :
  Heap.view fr = Ok st →
  for_each (Heap.in_place body) l fr =
    st' ← for_each body l st; Ok (Heap.store fr st').
Proof.
  revert fr st. induction l as [|a l IH]; intros fr st Hv; simpl.
  { by rewrite (store_view _ _ Hv). }
  assert (Heap.in_place body fr a = st' ← body st a; Ok (Heap.store fr st'))
    as -> by (unfold Heap.in_place; by rewrite Hv).
  destruct (body st a) as [st1|e]; simpl; [|done].
  rewrite (IH _ st1) by apply view_store.
  destruct (for_each body l st1); simpl; [|done]. by rewrite store_store.
Qed.

Lemma heap_process_record h data d :
  h !! data = Some d →
  Heap.process_record h data =
    '(out, is_pii) ← process_record d;
    Ok (fresh (dom h), is_pii, <[fresh (dom h) := out]> h).
Proof.
  intros Hd. set (r := fresh (dom h)).
  assert (r ≠ data) as Hne.
  { intros E. apply (is_fresh (dom h)). fold r. rewrite E.
    apply elem_of_dom. by rewrite Hd. }
  unfold Heap.process_record, Heap.dict_copy, Heap.load. rewrite Hd. simpl.
  fold r. rewrite lookup_insert_ne, Hd by done. simpl.
  rewrite (for_each_in_place _ _ _ (Locals d false ∅ [])); last first.
  { unfold Heap.view, Heap.load. simpl. by rewrite lookup_insert_eq. }
  unfold process_record, run_record.
  destruct (for_each field_step (map_to_list d) (Locals d false ∅ []))
    as [st1|e]; simpl; [|done].
  rewrite view_store. simpl. destruct (escalate st1) as [st2 F].
  rewrite store_store. case_bool_decide as HF; simpl.
  - rewrite (for_each_in_place _ _ _ st2) by apply view_store.
    destruct (for_each redact_field (elements F) st2) as [st3|e]; simpl; [|done].
    by rewrite !insert_insert_eq.
  - by rewrite !insert_insert_eq.
Qed.

(** C9.  [process_record] has no effect but its result: run on a heap in
    which [data] refers to a record, it returns a reference to a new
    object, leaves the object of [data] and every other object as they
    were, and its result, the contents of the new object and
    [is_pii], is the function [process_record] of the contents of the
    input alone, so equal inputs give equal results in any heap. *)
Theorem process_record_frame (h : Heap.heap) (data : Heap.loc)
    (d : gmap string value) :
  h !! data = Some d →
  ∃ out is_pii r h',
    Heap.process_record h data = Ok (r, is_pii, h') ∧
    (r ∉ dom h) ∧ h' !! r = Some out ∧
    h' !! data = Some d ∧ (∀ l, l ≠ r → h' !! l = h !! l) ∧
    process_record d = Ok (out, is_pii) ∧
    (∀ h2 data2, h2 !! data2 = Some d →
       ∃ r2 h2', Heap.process_record h2 data2 = Ok (r2, is_pii, h2') ∧
                 h2' !! r2 = Some out).
Proof.
  intros Hd. pose proof (process_record_finished d) as Hp.
  exists (redacted_data (finished d)), (is_pii_found (finished d)),
         (fresh (dom h)), (<[fresh (dom h) := redacted_data (finished d)]> h).
  assert (fresh (dom h) ∉ dom h) as Hf by apply is_fresh.
  split_and!.
  - by rewrite (heap_process_record h data d), Hp.
  - done.
  - apply lookup_insert_eq.
  - rewrite lookup_insert_ne; [done|]. intros E. apply Hf. rewrite E.
    apply elem_of_dom. by rewrite Hd.
  - intros l Hl. by apply lookup_insert_ne.
  - done.
  - intros h2 data2 Hd2. eexists _, _. split.
    + by rewrite (heap_process_record h2 data2 d), Hp.
    + apply lookup_insert_eq.
Qed.

Lemma process_record_frame_witness :
  ({[ 1%positive := contact_record ]} : Heap.heap) !! 1%positive
    = Some contact_record ∧
  ∃ out r h',
    Heap.process_record {[ 1%positive := contact_record ]} 1%positive
      = Ok (r, true, h') ∧
    h' !! r = Some out ∧ h' !! 1%positive = Some contact_record ∧
    out !! "name" = Some (VStr (py "JXXX DXX")).
Proof.
  assert (({[ 1%positive := contact_record ]} : Heap.heap) !! 1%positive
          = Some contact_record) as H by apply lookup_singleton_eq.
  split; [exact H|].
  destruct (process_record_frame _ 1%positive contact_record H)
    as (out & is_pii & r & h' & Hrun & _ & Hr & Hdata & _ & Hpure & _).
  assert (process_record contact_record
          = Ok (record [("name", py "JXXX DXX");
                        ("email", py "jXXXn@example.com")], true)) as Hc
    by (vm_compute; reflexivity).
  rewrite Hc in Hpure. injection Hpure as <- <-.
  eexists _, r, h'. split_and!; [exact Hrun|exact Hr|exact Hdata|].
  vm_compute. reflexivity.
Defined.


(** ** Iteration order

    Python visits the items of [data] in insertion order and the
    elements of the set [pii_fields_to_redact] in an unspecified order;
    [map_to_list] and [elements] fix some order.  The record, the flag
    and the categories are the same whatever the order. *)

Lemma sweep_order l1 l2 st :
  NoDup l1.*1 → l1 ≡ₚ l2 →
  redacted_data (sweep l1 st) = redacted_data (sweep l2 st) ∧
  is_pii_found (sweep l1 st) = is_pii_found (sweep l2 st) ∧
  combinatorial_keys (sweep l1 st) = combinatorial_keys (sweep l2 st).
Proof.
  intros Hnd Hp. assert (NoDup l2.*1) as Hnd2 by by rewrite <- Hp.
  split_and!.
  - apply map_eq. intros k. destruct (decide (k ∈ l1.*1)) as [Hin|Hout].
    + apply list_elem_of_fmap in Hin as ([k' v] & -> & Hin). simpl.
      rewrite (sweep_redacted_in l1 _ k' v) by done.
      rewrite (sweep_redacted_in l2 _ k' v); [done..|by rewrite <- Hp].
    + rewrite !sweep_redacted_notin; [done| |done]. by rewrite <- Hp.
  - apply Bool.eq_iff_eq_true. rewrite !sweep_pii.
    by setoid_rewrite Hp.
  - apply set_eq. intros c. rewrite !sweep_categories.
    by setoid_rewrite Hp.
Qed.

Lemma scan_order data items :
  items ≡ₚ map_to_list data →
  ∃ st, for_each field_step items (Locals data false ∅ []) = Ok st ∧
        redacted_data st = redacted_data (scanned data) ∧
        is_pii_found st = is_pii_found (scanned data) ∧
        combinatorial_keys st = combinatorial_keys (scanned data).
Proof.
  intros Hp. eexists. split; [apply for_each_field_step|].
  unfold scanned. symmetry in Hp. 
  destruct (sweep_order (map_to_list data) items (Locals data false ∅ []))
    as (-> & -> & ->); [apply NoDup_fst_map_to_list|done..].
Qed.

Lemma redact_all_order ks1 ks2 st :
  NoDup ks1 → ks1 ≡ₚ ks2 →
  redacted_data (redact_all ks1 st) = redacted_data (redact_all ks2 st) ∧
  is_pii_found (redact_all ks1 st) = is_pii_found (redact_all ks2 st) ∧
  combinatorial_keys (redact_all ks1 st) = combinatorial_keys (redact_all ks2 st).
Proof.
  intros Hnd Hp. assert (NoDup ks2) as Hnd2 by by rewrite <- Hp.
  destruct (redact_all_flags ks1 st) as [-> ->].
  destruct (redact_all_flags ks2 st) as [-> ->].
  split_and!; try done. apply map_eq. intros k.
  destruct (decide (k ∈ ks1)) as [Hin|Hout].
  - rewrite (redact_all_in ks1) by done.
    rewrite (redact_all_in ks2); [done..|by rewrite <- Hp].
  - rewrite (redact_all_notin ks1) by done.
    rewrite (redact_all_notin ks2); [done|by rewrite <- Hp].
Qed.

(** ** More of the test suite *)

Example test_no_pii :
  let data := record [("age", py "25"); ("city", py "Mumbai");
                      ("occupation", py "Engineer")] in
  process_record data = Ok (data, false).
Proof. by vm_compute. Qed.

Example test_empty : process_record ∅ = Ok (∅, false).
Proof. by vm_compute. Qed.

Example test_non_string :
  let data : gmap string value :=
    list_to_map [("age", VInt 25); ("active", VBool true)] in
  process_record data = Ok (data, false).
Proof. by vm_compute. Qed.

Example test_blank :
  let data := record [("name", py ""); ("email", py "   ")] in
  process_record data = Ok (data, false).
Proof. by vm_compute. Qed.

Example test_dotted_upi :
  let data := record [("upi_id", py "user@bank.com")] in
  process_record data = Ok (data, false).
Proof. by vm_compute. Qed.

Example test_redact_aadhar :
  redact_aadhar (py "1234 5678 9012") = py "XXXXXXXX9012".
Proof. by vm_compute. Qed.

Example test_redact_passport :
  redact_passport (py "A1234567") = Ok (py "AXXXXXX7").
Proof. by vm_compute. Qed.

Example test_redact_name_single : redact_name (py "A") = Ok (py "A").
Proof. by vm_compute. Qed.

Example test_redact_name_empty : redact_name (py "") = Ok (py "").
Proof. by vm_compute. Qed.

Example test_redact_email_short : redact_email (py "a@b.com") = Ok (py "X@b.com").
Proof. by vm_compute. Qed.

(** * Further properties of the code *)

(** ** Which fields [process_record] can change *)

Lemma classify_aadhar key v :
  key ∈ ["aadhar"; "address_proof"] →
  classify key v =
    if search AADHAR_REGEX v then Ok (Standalone (redact_aadhar v)) else Ok Nothing.
Proof.
  intros H. unfold classify, first_rule, rule_table, applies. simpl.
  set_unfold in H. destruct_or?; subst; try done; eval_keys;
    by destruct (search AADHAR_REGEX v).
Qed.

Lemma classify_passport v :
  classify "passport" v =
    if search PASSPORT_REGEX v
    then r ← redact_passport v; Ok (Standalone r) else Ok Nothing.
Proof.
  unfold classify, first_rule, rule_table, applies. simpl. eval_keys.
  by destruct (search PASSPORT_REGEX v).
Qed.

Lemma unselected_unverdicted data key :
  key ∉ standalone_keys → key ∉ escalated_keys →
  redacted_data (finished data) !! key = data !! key.
Proof.
  intros Hs He. rewrite finished_untouched.
  - rewrite scanned_redacted. destruct (data !! key) as [v|]; [|done].
    destruct (verdict_of (key, v)) eqn:V; try done.
    by apply verdict_of_standalone in V.
  - intros [_ H%escalated_fields]. done.
Qed.

(** X1.  A field whose key is none of the eleven recognised names is
    returned with the value it had, whatever that value is and whatever
    happens to the other fields. *)
Theorem unrecognised_field_untouched (data : gmap string value) (key : string) :
  key ∉ ["phone"; "contact"; "aadhar"; "address_proof"; "passport"; "upi_id";
         "name"; "email"; "address"; "ip_address"; "device_id"] →
  ∃ out is_pii, process_record data = Ok (out, is_pii) ∧
                out !! key = data !! key.
Proof.
  intros Hk. eexists _, _. split; [apply process_record_finished|].
  apply unselected_unverdicted.
  - unfold standalone_keys. set_unfold. tauto.
  - unfold escalated_keys. set_unfold. tauto.
Qed.

Lemma unrecognised_field_untouched_witness :
  ∃ out is_pii, process_record note_record = Ok (out, is_pii) ∧
                out !! "note" = Some (VStr (py "call 9876543210")).
Proof.
  assert ("note" ∉ ["phone"; "contact"; "aadhar"; "address_proof"; "passport";
                    "upi_id"; "name"; "email"; "address"; "ip_address";
                    "device_id"]) as H.
  { set_unfold. intros H. by destruct_or?. }
  destruct (unrecognised_field_untouched note_record "note" H)
    as (out & is_pii & Ho & Hk).
  exists out, is_pii. split; [exact Ho|]. rewrite Hk.
  vm_compute. reflexivity.
Defined.

(** X2.  [process_record] never changes the kind of a value: a value
    that is not a string is returned as it is, under any key, and a
    string is returned as a string; a key that is absent stays absent. *)
Theorem value_kinds_preserved (data : gmap string value) (key : string) :
  ∃ out is_pii, process_record data = Ok (out, is_pii) ∧
    match data !! key with
    | Some (VStr _) => ∃ s', out !! key = Some (VStr s')
    | other => out !! key = other
    end.
Proof.
  eexists _, _. split; [apply process_record_finished|].
  destruct (decide (2 ≤ size (categories data) ∧
                    key ∈ fields_of_categories (categories data))) as [[H1 H2]|Hn].
  - rewrite finished_escalated by done. unfold redacted_value.
    destruct (data !! key) as [[| | | |s]|]; try done.
    destruct (transform key s); eauto.
  - rewrite finished_untouched by done. rewrite scanned_redacted.
    destruct (data !! key) as [v|]; [|done].
    destruct (verdict_of (key, v)) eqn:V.
    + unfold verdict_of in V. simpl in V. destruct v; try done. eauto.
    + destruct v; eauto.
    + destruct v; eauto.
Qed.

(** X3.  The flag tells whether anything was redacted: [is_pii] is true
    exactly when a standalone rule matched some field or at least two
    categories were found, and when it is false the record is returned
    unchanged. *)
Theorem flag_accounts_for_changes (data : gmap string value) :
  ∃ out is_pii, process_record data = Ok (out, is_pii) ∧
    (is_pii = true ↔
       standalone_found data = true ∨ 2 ≤ size (categories data)) ∧
    (is_pii = true ∨ out = data).
Proof.
  eexists _, _. split; [apply process_record_finished|].
  rewrite finished_pii, <- standalone_found_scanned. split.
  - rewrite orb_true_iff, bool_decide_eq_true. tauto.
  - case_bool_decide as Hsz; [by left|].
    destruct (standalone_found data) eqn:Hq; [by left|]. right.
    apply map_eq. intros k. rewrite finished_untouched by tauto.
    by apply quiet_scan.
Qed.

(** X4.  What becomes of a field with a standalone key depends on the
    value of that field alone: two records that agree on it return the
    same value for it, whatever else they hold. *)
Theorem standalone_field_is_local (data1 data2 : gmap string value) (key : string) :
  key ∈ ["phone"; "contact"; "aadhar"; "address_proof"; "passport"; "upi_id"] →
  data1 !! key = data2 !! key →
  ∃ out1 out2 pii1 pii2,
    process_record data1 = Ok (out1, pii1) ∧
    process_record data2 = Ok (out2, pii2) ∧
    out1 !! key = out2 !! key.
Proof.
  intros Hk Heq. eexists _, _, _, _.
  split_and!; [apply process_record_finished..|].
  rewrite !standalone_field_kept by done.
  by rewrite !scanned_redacted, Heq.
Qed.

Lemma standalone_field_is_local_witness :
  ∃ out1 out2 pii1 pii2,
    process_record phone_record = Ok (out1, pii1) ∧
    process_record phone_and_name_record = Ok (out2, pii2) ∧
    out1 !! "phone" = out2 !! "phone".
Proof.
  apply (standalone_field_is_local phone_record phone_and_name_record "phone").
  - left.
  - vm_compute. reflexivity.
Defined.

(** X5.  Escalation leaves the fields of absent categories alone: when
    the category of [name], [email] or [address] was not found, or
    [device_context] was not found for [ip_address] and [device_id], the
    field is returned with the value it had, even if other categories
    escalate. *)
Theorem absent_category_untouched (data : gmap string value) (key c : string) :
  (key, c) ∈ [("name", "name"); ("email", "email"); ("address", "address");
              ("ip_address", "device_context"); ("device_id", "device_context")] →
  c ∉ categories data →
  ∃ out is_pii, process_record data = Ok (out, is_pii) ∧
                out !! key = data !! key.
Proof.
  intros Hk Hc. eexists _, _. split; [apply process_record_finished|].
  assert (key ∈ escalated_keys) as He.
  { unfold escalated_keys. set_unfold. destruct_or?; simplify_eq; tauto. }
  rewrite finished_untouched; [by apply scanned_escalated|].
  intros [_ H%elem_of_fields_of_categories]. apply Hc.
  set_unfold in Hk. set_unfold in H.
  destruct_or?; destruct_and?; simplify_eq; try done; destruct_or?; done.
Qed.

Lemma absent_category_untouched_witness :
  2 ≤ size (categories single_name_record) ∧
  ∃ out is_pii, process_record single_name_record = Ok (out, is_pii) ∧
                out !! "name" = Some (VStr (py "Alice")).
Proof.
  split; [vm_compute; repeat constructor|].
  assert (("name", "name") ∈
            [("name", "name"); ("email", "email"); ("address", "address");
             ("ip_address", "device_context"); ("device_id", "device_context")])
    as H1 by left.
  assert ("name" ∉ categories single_name_record) as H2.
  { apply (bool_decide_unpack _). vm_compute. exact I. }
  destruct (absent_category_untouched single_name_record "name" "name" H1 H2)
    as (out & is_pii & Ho & Hk).
  exists out, is_pii. split; [exact Ho|]. rewrite Hk.
  vm_compute. reflexivity.
Defined.

(** X6.  The categories that the first loop collects, in words:
    [name] when the [name] field is a string of at least two tokens,
    [email] when [EMAIL_REGEX] is found in the string of the [email]
    field, [address] when the stripped string of the [address] field has
    more than ten characters, and [device_context] when [ip_address] or
    [device_id] holds any string that is not blank, whatever it looks
    like; nothing else is ever collected, in whatever order the fields
    are visited. *)
Theorem categories_in_words (data : gmap string value) (c : string) :
  c ∈ categories data ↔
  (c = "name" ∧ ∃ s, data !! "name" = Some (VStr s) ∧
                     1 < length (split_ws (strip s))) ∨
  (c = "email" ∧ ∃ s, data !! "email" = Some (VStr s) ∧
                      search EMAIL_REGEX s = true) ∨
  (c = "address" ∧ ∃ s, data !! "address" = Some (VStr s) ∧
                        10 < length (strip s)) ∨
  (c = "device_context" ∧
   ∃ k s, k ∈ ["ip_address"; "device_id"] ∧ data !! k = Some (VStr s) ∧
          strip s ≠ []).
Proof. apply categories_spec. Qed.

(** ** The redaction functions on their own *)

Lemma split_ws_nil s : split_ws s = [] ↔ blank s.
Proof.
  unfold blank. induction s as [|c t IH]; simpl; [by split|].
  destruct (is_space c) eqn:Hc.
  - rewrite IH. split; [by constructor|by inversion 1].
  - split; [|inversion 1; congruence].
    destruct t as [|d t']; [done|]. destruct (is_space d); [done|].
    by destruct (split_ws (d :: t')).
Qed.

Lemma join_nil_tokens ws : Forall token ws → join " " ws = [] → ws = [].
Proof.
  destruct ws as [|w ws]; [done|]. intros [[Hne _] _]%Forall_cons.
  destruct w as [|c w]; [done|]. by destruct ws.
Qed.

Lemma masked_tokens name : Forall token (masked <$> split_ws name).
Proof.
  apply Forall_fmap. eapply Forall_impl; [apply split_ws_tokens|].
  intros w. apply masked_token.
Qed.

(** X7.  [redact_name] never raises and masks token by token: its
    result splits into as many tokens as the name, each as long as the
    token it comes from, beginning with the same character and
    continuing with ['X'] only; the tokens are joined by single spaces,
    so leading, trailing and repeated whitespace is dropped. *)
Theorem redact_name_masks_tokens (name : pystr) :
  ∃ r, redact_name name = Ok r ∧
       r = join " " (split_ws r) ∧
       Forall2 (λ w m, length m = length w ∧ head m = head w ∧
                       Forall (λ c, c = "X"%char) (tail m))
               (split_ws name) (split_ws r).
Proof.
  exists (join " " (masked <$> split_ws name)).
  split; [apply redact_name_ok|].
  rewrite split_ws_join by apply masked_tokens. split; [done|].
  apply Forall2_fmap_r, Forall_Forall2_diag, Forall_forall.
  intros [|c t] _; simpl; [by repeat split|].
  rewrite length_XS. split_and!; [done..|].
  unfold XS. by apply Forall_replicate.
Qed.

(** X8.  [redact_name] returns the empty string exactly for the names
    without any token, that is the empty and the all-whitespace ones. *)
Theorem redact_name_empty_iff_blank (name : pystr) :
  redact_name name = Ok [] ↔ blank name.
Proof.
  rewrite redact_name_ok. split.
  - intros [= H]. apply join_nil_tokens in H; [|apply masked_tokens].
    apply fmap_nil_inv in H. by apply split_ws_nil.
  - intros H%split_ws_nil. by rewrite H.
Qed.

(** X9.  [redact_email] never raises.  Without an ['@'] the result is
    ["[REDACTED_EMAIL]"].  Otherwise the text from the first ['@'] on is
    kept as it is and only the part before it is masked: a part of more
    than two characters becomes its first character, ["XXX"] and its
    last character, whatever its length, and a shorter part becomes as
    many ['X'] as it has characters. *)
Theorem redact_email_masks_local_part (email : pystr) :
  ((("@"%char) ∉ email) ∧ redact_email email = Ok (py "[REDACTED_EMAIL]")) ∨
  (∃ l d m, email = l ++ "@"%char :: d ∧ (("@"%char) ∉ l) ∧
            redact_email email = Ok (m ++ "@"%char :: d) ∧
            ((2 < length l ∧
              ∃ a b, head l = Some a ∧ last l = Some b ∧
                     m = a :: py "XXX" ++ [b]) ∨
             (length l ≤ 2 ∧ m = XS (length l)))).
Proof.
  destruct (redact_email_ok email) as [H|(l & d & -> & Hn & Hr)]; [by left|].
  right. exists l, d, (masked_local l). split_and!; [done..|].
  unfold masked_local. case_bool_decide as Hl.
  - left. split; [done|]. destruct l as [|a t]; [simpl in Hl; lia|].
    destruct (last (a :: t)) as [b|] eqn:L; [|by apply last_None in L].
    by exists a, b.
  - right. split; [lia|done].
Qed.

(** X10.  [redact_phone] never raises and never shows more than four
    characters of its argument: the result has six ['X'] between at most
    two leading and at most two trailing characters, so at most four
    digits survive; on an argument of at most two characters the two
    slices are the whole argument, which then appears on both sides of
    the mask. *)
Theorem redact_phone_bounds (v : pystr) :
  length (redact_phone v) = 6 + 2 * (length v `min` 2) ∧
  tally is_decimal (redact_phone v) ≤ 4 ∧
  (2 < length v ∨ redact_phone v = v ++ XS 6 ++ v).
Proof.
  unfold redact_phone, slice_to, slice_last. split_and!.
  - rewrite !length_app, length_take, length_drop.
    change (length (py "XXXXXX")) with 6. lia.
  - rewrite !tally_app.
    pose proof (tally_le_length is_decimal (take 2 v)).
    pose proof (tally_le_length is_decimal (drop (length v - 2) v)).
    rewrite length_take in *. rewrite length_drop in *.
    change (tally is_decimal (py "XXXXXX")) with 0. lia.
  - destruct (decide (2 < length v)) as [|Hl]; [by left|]. right.
    rewrite take_ge by lia. by replace (length v - 2) with 0 by lia.
Qed.

(** X11.  [redact_aadhar] never raises; its result is eight ['X']
    followed by the last four characters of the argument once its
    spaces are removed (fewer if there are fewer): it holds no space,
    is at most twelve characters long and shows at most four digits. *)
Theorem redact_aadhar_bounds (v : pystr) :
  length (redact_aadhar v) = 8 + (length (remove_char " " v) `min` 4) ∧
  ((" "%char) ∉ redact_aadhar v) ∧
  tally is_decimal (redact_aadhar v) ≤ 4.
Proof.
  unfold redact_aadhar, slice_last. split_and!.
  - rewrite length_app, length_drop.
    change (length (py "XXXXXXXX")) with 8. lia.
  - intros [H|H]%elem_of_app.
    + set_unfold in H. by destruct_or?.
    + apply subseteq_drop in H. unfold remove_char in H.
      apply list_elem_of_filter in H as [H _]. done.
  - rewrite tally_app.
    pose proof (tally_le_length is_decimal
      (drop (length (remove_char " " v) - 4) (remove_char " " v))).
    rewrite length_drop in *.
    change (tally is_decimal (py "XXXXXXXX")) with 0. lia.
Qed.

(** ** The Aadhar pattern in words *)

Lemma matches_rep_chars lo hi p prev s c' :
  matches (Rep lo (Some hi) (Chr p)) (prev, s) c' ↔
  ∃ tok post, s = tok ++ post ∧ lo ≤ length tok ≤ hi ∧
              Forall (λ c, p c = true) tok ∧ c' = (after prev tok, post).
Proof.
  simpl. split.
  - intros (n & Hlo & Hhi & (tok & post & -> & <- & Hf & ->)%power_chars).
    exists tok, post. split_and!; done.
  - intros (tok & post & -> & [Hlo Hhi] & Hf & ->).
    exists (length tok). split_and!; [done..|]. apply power_chars.
    exists tok, post. split_and!; done.
Qed.

Lemma separator_spec s :
  separator s ↔ length s ≤ 1 ∧ Forall (λ c, is_space c = true) s.
Proof.
  unfold separator. split.
  - intros [->|(c & -> & Hc)]; split; simpl; try lia; by repeat constructor.
  - intros [Hl Hf]. destruct s as [|c [|d s]]; [by left| |simpl in Hl; lia].
    right. exists c. by apply Forall_cons in Hf as [Hc _].
Qed.

Lemma after_group prev g :
  digit_group g → ∃ x, after prev g = Some x ∧ is_word x = true.
Proof.
  intros [Hl Hf]. unfold after.
  destruct (last g) as [x|] eqn:L; [|apply last_None in L; by subst].
  exists x. split; [done|]. apply last_Some_elem_of in L.
  rewrite Forall_forall in Hf.
  by apply (class_within_sound _ _ _ decimal_is_word), Hf.
Qed.

Lemma group_starts_with_word g rest :
  digit_group g → starts_with_word (g ++ rest) = true.
Proof.
  intros [Hl Hf]. destruct g as [|x g]; [done|]. simpl.
  apply Forall_cons in Hf as [Hx _].
  by apply (class_within_sound _ _ _ decimal_is_word).
Qed.

Lemma boundary_before pre rest :
  starts_with_word rest = true →
  at_boundary (position pre rest) = true ↔ ends_in_word pre = false.
Proof.
  unfold at_boundary, word_before, word_after, position, ends_in_word,
    starts_with_word. simpl. intros ->.
  by destruct (match last pre with Some x => is_word x | None => false end).
Qed.

Lemma boundary_after x post :
  is_word x = true →
  at_boundary (Some x, post) = true ↔ starts_with_word post = false.
Proof.
  unfold at_boundary, word_before, word_after, starts_with_word. simpl.
  intros ->. by destruct (match post with x :: _ => is_word x | [] => false end).
Qed.

Lemma aadhar_search_spec s : search AADHAR_REGEX s = true ↔ aadhar_token s.
Proof.
  rewrite search_matches by done. unfold aadhar_token.
  change AADHAR_REGEX with
    (Cat Bnd (Cat (Rep 4 (Some 4) (Chr is_decimal))
      (Cat (Rep 0 (Some 1) (Chr is_space))
        (Cat (Rep 4 (Some 4) (Chr is_decimal))
          (Cat (Rep 0 (Some 1) (Chr is_space))
            (Cat (Rep 4 (Some 4) (Chr is_decimal)) (Cat Bnd Eps))))))).
  split.
  - intros (pre & rest & c' & -> & c0 & [Hb ->] & Hm).
    destruct Hm as (c1 & Hg1 & c2 & Hs1 & c3 & Hg2 & c4 & Hs2 & c5 & Hg3 &
                    c6 & [Hb' ->] & ->).
    apply matches_rep_chars in Hg1 as (g1 & r1 & -> & Hl1 & Hf1 & ->).
    apply matches_rep_chars in Hs1 as (s1 & r2 & -> & Hls1 & Hfs1 & ->).
    apply matches_rep_chars in Hg2 as (g2 & r3 & -> & Hl2 & Hf2 & ->).
    apply matches_rep_chars in Hs2 as (s2 & r4 & -> & Hls2 & Hfs2 & ->).
    apply matches_rep_chars in Hg3 as (g3 & post & -> & Hl3 & Hf3 & ->).
    assert (digit_group g1) as G1 by (split; [lia|done]).
    assert (digit_group g2) as G2 by (split; [lia|done]).
    assert (digit_group g3) as G3 by (split; [lia|done]).
    exists pre, g1, s1, g2, s2, g3, post.
    split_and!; try done; try (apply separator_spec; split; [lia|done]).
    + eapply boundary_before; [|exact Hb]. by apply group_starts_with_word.
    + destruct (after_group (after (after (after (after (last pre) g1) s1) g2) s2)
                            g3 G3) as (x & Hx & Hw).
      rewrite Hx in Hb'. by apply (boundary_after x post Hw).
  - intros (pre & g1 & s1 & g2 & s2 & g3 & post & -> & G1 & S1 & G2 & S2 & G3 &
            Hpre & Hpost).
    apply separator_spec in S1 as [Hls1 Hfs1].
    apply separator_spec in S2 as [Hls2 Hfs2].
    eexists pre, _, _. split; [done|].
    exists (position pre (g1 ++ s1 ++ g2 ++ s2 ++ g3 ++ post)). split.
    { split; [|done]. apply boundary_before; [|done].
      by apply group_starts_with_word. }
    eexists. split.
    { apply matches_rep_chars. exists g1, (s1 ++ g2 ++ s2 ++ g3 ++ post).
      destruct G1 as [-> ?]. split_and!; done. }
    eexists. split.
    { apply matches_rep_chars. exists s1, (g2 ++ s2 ++ g3 ++ post).
      split_and!; [done|lia|done..]. }
    eexists. split.
    { apply matches_rep_chars. exists g2, (s2 ++ g3 ++ post).
      destruct G2 as [-> ?]. split_and!; done. }
    eexists. split.
    { apply matches_rep_chars. exists s2, (g3 ++ post).
      split_and!; [done|lia|done..]. }
    eexists. split.
    { apply matches_rep_chars. exists g3, post.
      destruct G3 as [-> ?]. split_and!; done. }
    eexists. split; [|done]. split; [|done].
    destruct (after_group (after (after (after (after (last pre) g1) s1) g2) s2)
                          g3 G3) as (x & Hx & Hw).
    unfold position. rewrite Hx. by apply boundary_after.
Qed.

(** ** The patterns, and the fields they guard *)

(** X12.  [PHONE_REGEX] is found in a string exactly when the string
    contains a run of ten digits with no word character right before it
    and none right after it. *)
Theorem phone_pattern_in_words (s : pystr) :
  search PHONE_REGEX s = true ↔
  ∃ pre tok post,
    s = pre ++ tok ++ post ∧ length tok = 10 ∧
    Forall (λ c, is_decimal c = true) tok ∧
    ends_in_word pre = false ∧ starts_with_word post = false.
Proof. apply phone_search_spec. Qed.

(** X13.  In a string of digits only, [PHONE_REGEX] is found exactly
    when there are ten of them: a longer run of digits, such as a
    twelve-digit number, has no match. *)
Theorem phone_pattern_on_digits (s : pystr) :
  Forall (λ c, is_decimal c = true) s →
  search PHONE_REGEX s = true ↔ length s = 10.
Proof.
  intros Hs. rewrite phone_search_spec. split.
  - intros (pre & tok & post & -> & Hl & _ & Hpre & Hpost).
    apply Forall_app in Hs as [Hp [_ Hq]%Forall_app].
    assert (pre = []) as ->.
    { destruct (last pre) as [x|] eqn:L; [|by apply last_None in L].
      unfold word_before, position in Hpre. simpl in Hpre. rewrite L in Hpre.
      apply last_Some_elem_of in L. rewrite Forall_forall in Hp.
      by rewrite (class_within_sound _ _ _ decimal_is_word (Hp x L)) in Hpre. }
    assert (post = []) as ->.
    { destruct post as [|y post]; [done|]. apply Forall_cons in Hq as [Hy _].
      unfold word_after in Hpost. simpl in Hpost.
      by rewrite (class_within_sound _ _ _ decimal_is_word Hy) in Hpost. }
    by rewrite app_nil_r.
  - intros Hl. exists [], s, []. rewrite app_nil_r. by split_and!.
Qed.

Lemma phone_pattern_on_digits_witness :
  Forall (λ c, is_decimal c = true) (py "123456789012") ∧
  search PHONE_REGEX (py "123456789012") = false.
Proof.
  assert (Forall (λ c, is_decimal c = true) (py "123456789012")) as H
    by repeat constructor.
  split; [exact H|].
  destruct (search PHONE_REGEX (py "123456789012")) eqn:E; [|reflexivity].
  apply (phone_pattern_on_digits _ H) in E. discriminate E.
Defined.

(** X14.  [AADHAR_REGEX] is found in a string exactly when the string
    contains three groups of four digits, each two separated by nothing
    or by one whitespace character, with no word character right before
    the first group and none right after the last. *)
Theorem aadhar_pattern_in_words (s : pystr) :
  search AADHAR_REGEX s = true ↔
  ∃ pre g1 s1 g2 s2 g3 post,
    s = pre ++ g1 ++ s1 ++ g2 ++ s2 ++ g3 ++ post ∧
    digit_group g1 ∧ separator s1 ∧ digit_group g2 ∧ separator s2 ∧
    digit_group g3 ∧
    ends_in_word pre = false ∧ starts_with_word post = false.
Proof. apply aadhar_search_spec. Qed.

(** X15.  [UPI_REGEX] is found in a string exactly when the string has
    an ['@'] with a word character, a ['.'] or a ['-'] right before it
    and a word character right after it. *)
Theorem upi_pattern_in_words (s : pystr) :
  search UPI_REGEX s = true ↔
  ∃ pre x y post,
    s = pre ++ x :: "@"%char :: y :: post ∧
    (is_word x = true ∨ x = "."%char ∨ x = "-"%char) ∧ is_word y = true.
Proof.
  rewrite upi_search_spec. unfold local_at_domain, any_of. simpl.
  split; intros (pre & x & y & post & -> & Hx & Hy);
    exists pre, x, y, post; (split_and!; [done| |done]).
  - rewrite orb_false_r, !orb_true_iff in Hx. unfold is_char in Hx.
    rewrite !bool_decide_eq_true in Hx. naive_solver.
  - rewrite orb_false_r, !orb_true_iff. unfold is_char.
    rewrite !bool_decide_eq_true. naive_solver.
Qed.

Lemma remove_char_group g : digit_group g → remove_char " " g = g.
Proof.
  intros [_ Hf]. unfold remove_char. induction g as [|x g IH]; [done|].
  apply Forall_cons in Hf as [Hx Hf]. rewrite filter_cons_True.
  - by rewrite IH.
  - intros ->. done.
Qed.

(** X16.  On a value that is an Aadhar number and nothing else, three
    groups of four digits separated by nothing or by one whitespace
    character, the pattern is found and [redact_aadhar] returns eight
    ['X'] followed by the last group: the first eight digits are hidden
    and the last four shown. *)
Theorem redact_aadhar_on_number (g1 s1 g2 s2 g3 : pystr) :
  digit_group g1 → separator s1 → digit_group g2 → separator s2 →
  digit_group g3 →
  search AADHAR_REGEX (g1 ++ s1 ++ g2 ++ s2 ++ g3) = true ∧
  redact_aadhar (g1 ++ s1 ++ g2 ++ s2 ++ g3) = XS 8 ++ g3.
Proof.
  intros G1 S1 G2 S2 G3. split.
  - apply aadhar_search_spec. exists [], g1, s1, g2, s2, g3, [].
    rewrite app_nil_r. by split_and!.
  - unfold redact_aadhar, slice_last. f_equal.
    rewrite !(assoc_L (++) _ _ g3). unfold remove_char at 2.
    unfold remove_char at 1. rewrite filter_app.
    change (filter (λ x, x ≠ " "%char) g3) with (remove_char " " g3).
    rewrite (remove_char_group g3 G3), length_app.
    destruct G3 as [-> _]. apply drop_app_length'. lia.
Qed.

Lemma redact_aadhar_on_number_witness :
  search AADHAR_REGEX (py "1234" ++ py " " ++ py "5678" ++ [] ++ py "9012") = true ∧
  redact_aadhar (py "1234" ++ py " " ++ py "5678" ++ [] ++ py "9012")
    = XS 8 ++ py "9012".
Proof.
  apply redact_aadhar_on_number.
  - split; [reflexivity|repeat constructor].
  - right. exists " "%char. split; reflexivity.
  - split; [reflexivity|repeat constructor].
  - by left.
  - split; [reflexivity|repeat constructor].
Defined.

Lemma standalone_field_result data key v x :
  key ∈ standalone_keys → data !! key = Some (VStr v) → strip v ≠ [] →
  classify key v = Ok (Standalone x) →
  process_record data = Ok (redacted_data (finished data), true) ∧
  redacted_data (finished data) !! key = Some (VStr x).
Proof.
  intros Hk Hd Hv C. apply (standalone_verdict_result data key (VStr v)); try done.
  unfold verdict_of. simpl. by rewrite bool_decide_eq_false_2, C.
Qed.

(** X17.  When the string of an [aadhar] or [address_proof] field
    contains an Aadhar number as a whole token, [process_record] returns
    [is_pii = true] and replaces the field by eight ['X'] and the last
    four characters of the whole value with its spaces removed; the new
    value never holds more than four digits. *)
Theorem aadhar_field_redaction (data : gmap string value) (key : string) (v : pystr) :
  key ∈ ["aadhar"; "address_proof"] → data !! key = Some (VStr v) →
  aadhar_token v →
  ∃ out r, process_record data = Ok (out, true) ∧
           out !! key = Some (VStr r) ∧
           r = XS 8 ++ slice_last 4 (remove_char " " v) ∧
           tally is_decimal r ≤ 4.
Proof.
  intros Hk Hd Hm%aadhar_search_spec.
  destruct (standalone_field_result data key v (redact_aadhar v)) as [Hp Ho];
    try done.
  - unfold standalone_keys. set_unfold. tauto.
  - by apply (digits_not_blank _ _ _ need_aadhar).
  - by rewrite classify_aadhar, Hm.
  - eexists _, _. split_and!; [done..|].
    pose proof (tally_le_length is_decimal (slice_last 4 (remove_char " " v))).
    pose proof (slice_last_length 4 (remove_char " " v)).
    unfold redact_aadhar. rewrite tally_app.
    change (tally is_decimal (py "XXXXXXXX")) with 0. lia.
Qed.

Lemma aadhar_field_redaction_witness :
  ∃ out, process_record aadhar_record = Ok (out, true) ∧
         out !! "aadhar" = Some (VStr (py "XXXXXXXX9012")).
Proof.
  assert ("aadhar" ∈ ["aadhar"; "address_proof"]) as H1 by left.
  assert (aadhar_record !! "aadhar" = Some (VStr (py "1234 5678 9012"))) as H2
    by (vm_compute; reflexivity).
  assert (aadhar_token (py "1234 5678 9012")) as H3.
  { exists [], (py "1234"), (py " "), (py "5678"), (py " "), (py "9012"), [].
    split_and!; try reflexivity;
      try (split; [reflexivity|repeat constructor]);
      right; exists " "%char; by split. }
  destruct (aadhar_field_redaction aadhar_record "aadhar" _ H1 H2 H3)
    as (out & r & Ho & Hk & -> & _).
  exists out. split; [exact Ho|exact Hk].
Defined.

(** X18.  When [PASSPORT_REGEX] is found in the string of a [passport]
    field, [process_record] returns [is_pii = true] and replaces the
    field by the first character of the whole value, six ['X'] and the
    last character of the whole value: eight characters in all, however
    long the value was. *)
Theorem passport_field_redaction (data : gmap string value) (v : pystr) :
  data !! "passport" = Some (VStr v) → search PASSPORT_REGEX v = true →
  ∃ out a b, process_record data = Ok (out, true) ∧
             head v = Some a ∧ last v = Some b ∧
             out !! "passport" = Some (VStr (a :: XS 6 ++ [b])).
Proof.
  intros Hd Hm.
  pose proof (digits_not_blank _ _ _ need_passport Hm) as Hnb.
  destruct v as [|a t]; [done|].
  destruct (last (a :: t)) as [b|] eqn:L; [|by apply last_None in L].
  destruct (standalone_field_result data "passport" (a :: t)
              (a :: XS 6 ++ [b])) as [Hp Ho]; try done.
  - unfold standalone_keys. set_unfold. tauto.
  - rewrite classify_passport, Hm. unfold redact_passport, index_last.
    by rewrite L.
  - by exists (redacted_data (finished data)), a, b.
Qed.

Lemma passport_field_redaction_witness :
  ∃ out, process_record passport_record = Ok (out, true) ∧
         out !! "passport" = Some (VStr (py "AXXXXXX7")).
Proof.
  assert (passport_record !! "passport" = Some (VStr (py "A1234567"))) as H1
    by (vm_compute; reflexivity).
  assert (search PASSPORT_REGEX (py "A1234567") = true) as H2
    by (vm_compute; reflexivity).
  destruct (passport_field_redaction passport_record _ H1 H2)
    as (out & a & b & Ho & [= <-] & [= <-] & Hk).
  exists out. split; [exact Ho|exact Hk].
Defined.

(** ** The batch driver *)


Lemma process_row_done J row o : process_row J row = Done o → row_ok J row.
Proof.
  unfold process_row, row_item, row_ok.
  destruct (row !! "record_id") as [rid|]; [|done]. simpl.
  destruct (row !! "data_json") as [[s|]|]; [|done..]. simpl.
  destruct (json_loads J s) as [[data|]|] eqn:E; [|done|];
    intros _; (split; [done|]); exists s; by rewrite E.
Qed.


Lemma process_rows_done J rows processed outs :
  process_rows J rows processed = Done outs → Forall (row_ok J) rows.
Proof.
  revert processed. induction rows as [|row rows IH]; intros processed; simpl.
  { constructor. }
  destruct (process_row J row) as [o|e] eqn:E; [|done]. simpl.
  intros H. constructor; [by eapply process_row_done|by eapply IH].
Qed.




(** X21.  A row whose JSON document is valid but not an object is not
    handled like an undecodable one: it stops [main], which then writes
    nothing, whatever the other rows are. *)
Theorem main_stops_at_non_object (J : json_codec) (before after : list csv_row)
    (row : csv_row) (s : pystr) (open_output : attempt unit) (w : world) :
  row !! "data_json" = Some (Text s) → json_loads J s = Some JsonOther →
  output_file (main J (Done (before ++ row :: after)) open_output w)
  = output_file w.
Proof.
  intros Hs Hj. unfold main. simpl.
  destruct (process_rows J (before ++ row :: after) []) as [outs|e] eqn:E;
    simpl; [|done].
  apply process_rows_done in E.
  apply Forall_app in E as [_ [[_ (s' & Hs' & Hj')] _]%Forall_cons].
  congruence.
Qed.

Lemma main_stops_at_non_object_witness :
  output_file (main toy_codec (Done toy_bad_rows) (Done ()) (World None []))
  = None.
Proof.
  apply (main_stops_at_non_object toy_codec
           [ {[ "record_id" := Text (py "1"); "data_json" := Text (py "{}") ]} ]
           [] _ (py "[]")).
  - vm_compute. reflexivity.
  - vm_compute. reflexivity.
Defined.
